(** * neurocontainers-ui: the group directive editor

    A shallow embedding of [src/components/directives/group.tsx]: the
    module-level registry of group editors, the simplified parameter
    editor built by [createGroupEditorComponent], and the list handlers
    of [GroupDirectiveComponent].

    Rendering (JSX, class names, icons) is left out; what is kept is
    every handler that computes a value handed to a callback or stored
    in component state. *)

From Stdlib Require Import ZArith Lia.
From stdpp Require Import base option list strings gmap.

Local Open Scope Z_scope.

(** ** JavaScript arrays

    An array is the sequence of its slots.  A slot holds [Some x], or
    [None] when it is a hole or holds [undefined]; both read back as
    [undefined].  Indices are JavaScript numbers; every index the
    component handles is an integer (a position produced by
    [group.map], or such a position plus or minus one), hence [Z].
    Lists are unbounded: the 2^32-1 limit on array lengths is not
    modelled. *)
Module JsArray.
Section Ops.
Context {A : Type}.

  (** [[...group]] for a dense, well-typed [group]. *)
Definition of_list (l : list A) : list (option A) := Some <$> l.

  (** [a[i]]: [undefined] outside the array. *)
Definition get (a : list (option A)) (i : Z) : option A :=
    if i <? 0 then None else default None (a !! Z.to_nat i).

  (** [a[i] = v].  Inside the array the slot is replaced; past the end
      the array grows, the slots in between being holes; a negative [i]
      is not an array index, the assignment creates an ordinary property
      and the slots stay as they are. *)
Definition set (a : list (option A)) (i : Z) (v : option A)
    : list (option A) :=
    if i <? 0 then a
    else
      let n := Z.to_nat i in
      if (n <? length a)%nat then <[n := v]> a
      else a ++ replicate (n - length a)%nat None ++ [v].

  (** [a.push(v)]. *)
Definition push (a : list (option A)) (v : option A) : list (option A) :=
    a ++ [v].

  (** [a.splice(start, deleteCount, ...items)], the array afterwards.
      A negative [start] counts from the end, and both arguments are
      clamped to the array. *)
Definition splice (a : list (option A)) (start deleteCount : Z)
      (items : list (option A)) : list (option A) :=
    let len := Z.of_nat (length a) in
    let actualStart :=
      if start <? 0 then Z.max (len + start) 0 else Z.min start len in
    let actualDeleteCount :=
      Z.min (Z.max deleteCount 0) (len - actualStart) in
    take (Z.to_nat actualStart) a ++ items ++
    drop (Z.to_nat (actualStart + actualDeleteCount)) a.

  (** [l.filter((x, i) => p x i)] on a dense array, the callback seeing
      positions [from], [from + 1], ... *)
Fixpoint filter_from (p : A → Z → bool) (from : Z) (l : list A) : list A :=
    match l with
    | [] => []
    | x :: l' =>
        if p x from then x :: filter_from p (from + 1) l'
        else filter_from p (from + 1) l'
    end.

Definition filter (p : A → Z → bool) (l : list A) : list A :=
    filter_from p 0 l.
End Ops.
End JsArray.

(** ** Event handlers

    A handler runs against the component's state and may call the
    owner's callbacks; [Handler] threads the state and collects the
    calls in the order they are made. *)
Section Handler.
Context {St Ev : Type}.

Definition Handler (X : Type) : Type := St → X * St * list Ev.

Definition ret {X} (x : X) : Handler X := λ st, (x, st, []).

Definition bind {X Y} (h : Handler X) (k : X → Handler Y) : Handler Y :=
    λ st,
      let '(x, st1, evs1) := h st in
      let '(y, st2, evs2) := k x st1 in
      (y, st2, evs1 ++ evs2).

Definition emit (e : Ev) : Handler unit := λ st, (tt, st, [e]).
Definition modify (f : St → St) : Handler unit := λ st, (tt, f st, []).
Definition read : Handler St := λ st, (st, st, []).

  (** The state after the handler, and the callbacks it made. *)
Definition state_after {X} (h : Handler X) (st : St) : St := (h st).1.2.
Definition calls {X} (h : Handler X) (st : St) : list Ev := (h st).2.
End Handler.

Declare Scope handler_scope.
Delimit Scope handler_scope with handler.
Notation "c1 ;;; c2" := (bind c1 (λ _, c2))
  (at level 100, right associativity) : handler_scope.
Notation "'let*' x ':=' c1 'in' c2" := (bind c1 (λ x, c2))
  (at level 100, x pattern, c1 at next level, right associativity)
  : handler_scope.

(** ** Values held by a parameter mapping

    [Record<string, unknown>]: the values the editor itself produces are
    strings (dropdown, text), booleans and string arrays (tags); a mapping
    handed in by the owner may also hold [undefined] or [null]. *)
Inductive Value : Type :=
  | VUndefined
  | VNull
  | VBoolean (b : bool)
  | VString (s : string)
  | VArray (items : list string).

(** [v ?? d] *)
Definition nullish (v d : Value) : Value :=
  match v with
  | VUndefined | VNull => d
  | _ => v
  end.

(** [v !== undefined] *)
Definition is_defined (v : Value) : bool :=
  match v with
  | VUndefined => false
  | _ => true
  end.

(** [obj[key]] on a plain record: a key that is not there reads as
    [undefined].  Keys are ordinary property names: the names a plain
    object inherits ([constructor], [toString], ...) and [__proto__],
    which an assignment treats specially, are not modelled. *)
Definition prop (obj : gmap string Value) (key : string) : Value :=
  default VUndefined (obj !! key).

(** An optional property [p?: A] of an object literal: left out, written
    with the value [undefined], or given. *)
Inductive Optional (A : Type) : Type :=
  | Absent
  | Undefined
  | Given (a : A).
Arguments Absent {A}.
Arguments Undefined {A}.
Arguments Given {A} a.

(** ['p' in obj] *)
Definition present {A} (o : Optional A) : bool :=
  match o with
  | Absent => false
  | _ => true
  end.

(** [obj.p] *)
Definition read_optional {A} (inj : A → Value) (o : Optional A) : Value :=
  match o with
  | Given a => inj a
  | _ => VUndefined
  end.

(** ** The simplified parameter editor *)
Module ParamEditor.

  (** The type-specific part of [GroupEditorArgument]. *)
Inductive ArgumentType : Type :=
    | Dropdown (options : list string) (defaultValue : Optional string)
    | Text (defaultValue : Optional string) (multiline : option bool)
    | Array (defaultValue : Optional (list string))
    | Boolean (defaultValue : Optional bool).

Record GroupEditorArgument : Type := {
    name : string;
    required : bool;
    description : option string;
    advanced : option bool;
    type : ArgumentType;
  }.

  (** ['defaultValue' in arg] and [arg.defaultValue]. *)
Definition hasDefaultValue (arg : GroupEditorArgument) : bool :=
    match type arg with
    | Dropdown _ d => present d
    | Text d _ => present d
    | Array d => present d
    | Boolean d => present d
    end.

Definition defaultValue (arg : GroupEditorArgument) : Value :=
    match type arg with
    | Dropdown _ d => read_optional VString d
    | Text d _ => read_optional VString d
    | Array d => read_optional VArray d
    | Boolean d => read_optional VBoolean d
    end.

Definition isBoolean (arg : GroupEditorArgument) : bool :=
    match type arg with Boolean _ => true | _ => false end.
Definition isText (arg : GroupEditorArgument) : bool :=
    match type arg with Text _ _ => true | _ => false end.
Definition isArray (arg : GroupEditorArgument) : bool :=
    match type arg with Array _ => true | _ => false end.

  (** [getDefaultValue] of [renderArgument]. *)
Definition getDefaultValue (arg : GroupEditorArgument) : Value :=
    if isBoolean arg && hasDefaultValue arg then
      nullish (defaultValue arg) (VBoolean false)
    else if isText arg && hasDefaultValue arg then
      nullish (defaultValue arg) (VString "")
    else if isArray arg && hasDefaultValue arg then
      nullish (defaultValue arg) (VArray [])
    else VString "".

Section Editor.
Context {Directive Metadata : Type}.

Record GroupDirective : Type := { group : list Directive }.

  (** [helpContent] only renders and is left out. *)
Record GroupEditor : Type := {
    metadata : Metadata;
    arguments : list GroupEditorArgument;
    updateDirective : gmap string Value → GroupDirective;
  }.

  (** What the component does to the outside: calls of the schema's
      [updateDirective] and of the owner's [onChange]. *)
Inductive Event : Type :=
    | UpdateDirective (args : gmap string Value)
    | OnGroupChange (updatedGroup : list Directive)
                    (params : gmap string Value).

Record State : Type := {
    showAdvanced : bool;
    initializedRef : bool;
  }.

Definition mounted : State :=
    {| showAdvanced := false; initializedRef := false |}.

Definition setInitializedRef (b : bool) (st : State) : State :=
    {| showAdvanced := showAdvanced st; initializedRef := b |}.

Definition setShowAdvanced (b : bool) (st : State) : State :=
    {| showAdvanced := b; initializedRef := initializedRef st |}.

Variable editorInfo : GroupEditor.

  (** [onChangeWrapper]; its [console.log] is left out. *)
Definition onChangeWrapper (updatedGroup : list Directive)
      (params : gmap string Value) : Handler (St := State) unit :=
    emit (OnGroupChange updatedGroup params).

  (** A call [editorInfo.updateDirective(args)], recorded. *)
Definition callUpdateDirective (args : gmap string Value)
    : Handler (St := State) GroupDirective :=
    (emit (UpdateDirective args) ;;; ret (updateDirective editorInfo args))%handler.

  (** [getDefaultParams]: the [forEach] over the schema, in order. *)
Definition addDefault (defaults : gmap string Value)
      (arg : GroupEditorArgument) : gmap string Value :=
    if hasDefaultValue arg && is_defined (defaultValue arg)
    then <[name arg := defaultValue arg]> defaults
    else defaults.

Definition getDefaultParams : gmap string Value :=
    foldl addDefault ∅ (arguments editorInfo).

  (** [Object.keys(customParams).length] *)
Definition keys_length (customParams : gmap string Value) : nat :=
    size customParams.

Definition currentParams (customParams : gmap string Value)
    : gmap string Value :=
    if (0 <? keys_length customParams)%nat then customParams
    else getDefaultParams.

Definition updateParameter (customParams : gmap string Value)
      (key : string) (value : Value) : Handler (St := State) unit :=
    (let updatedParams := <[key := value]> (currentParams customParams) in
     let* updatedDirective := callUpdateDirective updatedParams in
     onChangeWrapper (group updatedDirective) updatedParams)%handler.

  (** The body of the [useEffect] that initialises the editor. *)
Definition autoInitialize (customParams : gmap string Value)
    : Handler (St := State) unit :=
    (let* st := read in
     if negb (initializedRef st) && (keys_length customParams =? 0)%nat then
       let defaultParams := getDefaultParams in
       let* updatedDirective := callUpdateDirective defaultParams in
       onChangeWrapper (group updatedDirective) defaultParams ;;;
       modify (setInitializedRef true)
     else ret tt)%handler.

  (** [currentValue] of [renderArgument]. *)
Definition currentValue (customParams : gmap string Value)
      (arg : GroupEditorArgument) : Value :=
    nullish (prop (currentParams customParams) (name arg))
            (getDefaultValue arg).

  (** The "Switch to Advanced Mode" button. *)
Definition switchToAdvancedMode (group : list Directive)
    : Handler (St := State) unit :=
    onChangeWrapper group ∅.
End Editor.
End ParamEditor.

(** ** The registry of group editors

    [groupEditors] is a module-level [Map], empty when the module is
    loaded.  [registerDirective] belongs to [./registry]; what is kept of
    it is the list of the calls it received, each with the editor whose
    generated component was attached to the metadata. *)
Module Registry.
Section Registry.
Context {Directive Metadata : Type}.

Record Registry : Type := {
  groupEditors : gmap string (@ParamEditor.GroupEditor Directive Metadata);
  registeredDirectives :
    list (Metadata * @ParamEditor.GroupEditor Directive Metadata);
}.

Definition loaded : Registry :=
  {| groupEditors := ∅; registeredDirectives := [] |}.

Definition registerGroupEditor (name : string)
    (editor : @ParamEditor.GroupEditor Directive Metadata)
    (reg : Registry) : Registry :=
  {| groupEditors := <[name := editor]> (groupEditors reg);
     registeredDirectives :=
       registeredDirectives reg ++ [(ParamEditor.metadata editor, editor)] |}.

Definition getGroupEditor (name : string) (reg : Registry)
  : option (@ParamEditor.GroupEditor Directive Metadata) :=
  groupEditors reg !! name.

(** A run of registrations, first to last. *)
Definition registerAll
    (regs : list (string * @ParamEditor.GroupEditor Directive Metadata))
    (reg : Registry) : Registry :=
  foldl (λ r call, registerGroupEditor call.1 call.2 r) reg regs.
End Registry.
End Registry.

(** ** The group list editor *)
Module GroupList.

Inductive Direction : Type := Up | Down.

Record State : Type := {
  isExpanded : bool;
  draggedIndex : option Z;
  dragOverIndex : option Z;
  deleteConfirmIndex : option Z;
  shouldScrollToNew : bool;
}.

Definition mounted : State :=
  {| isExpanded := true; draggedIndex := None; dragOverIndex := None;
     deleteConfirmIndex := None; shouldScrollToNew := false |}.

Definition setIsExpanded (b : bool) (st : State) : State :=
  {| isExpanded := b; draggedIndex := draggedIndex st;
     dragOverIndex := dragOverIndex st;
     deleteConfirmIndex := deleteConfirmIndex st;
     shouldScrollToNew := shouldScrollToNew st |}.

Definition setDraggedIndex (i : option Z) (st : State) : State :=
  {| isExpanded := isExpanded st; draggedIndex := i;
     dragOverIndex := dragOverIndex st;
     deleteConfirmIndex := deleteConfirmIndex st;
     shouldScrollToNew := shouldScrollToNew st |}.

Definition setDragOverIndex (i : option Z) (st : State) : State :=
  {| isExpanded := isExpanded st; draggedIndex := draggedIndex st;
     dragOverIndex := i;
     deleteConfirmIndex := deleteConfirmIndex st;
     shouldScrollToNew := shouldScrollToNew st |}.

Definition setDeleteConfirmIndex (i : option Z) (st : State) : State :=
  {| isExpanded := isExpanded st; draggedIndex := draggedIndex st;
     dragOverIndex := dragOverIndex st;
     deleteConfirmIndex := i;
     shouldScrollToNew := shouldScrollToNew st |}.

Definition setShouldScrollToNew (b : bool) (st : State) : State :=
  {| isExpanded := isExpanded st; draggedIndex := draggedIndex st;
     dragOverIndex := dragOverIndex st;
     deleteConfirmIndex := deleteConfirmIndex st;
     shouldScrollToNew := b |}.

Section Component.
Context {Directive : Type}.

(** The [group] prop of the render the handlers belong to. *)
Variable group : list Directive.

(** The handlers call [onChange] with a whole array. *)
Definition onChange (updatedGroup : list (option Directive))
  : Handler (St := State) unit :=
  emit updatedGroup.

Definition toggleExpand : Handler (St := State) (Ev := list (option Directive)) unit :=
  (let* st := read in modify (setIsExpanded (negb (isExpanded st))))%handler.

Definition handleDirectiveChange (index : Z) (updatedDirective : Directive)
  : Handler (St := State) unit :=
  let updatedGroup := JsArray.of_list group in
  let updatedGroup := JsArray.set updatedGroup index (Some updatedDirective) in
  onChange updatedGroup.

Definition addDirective (directive : Directive) (index : option Z)
  : Handler (St := State) unit :=
  (modify (setShouldScrollToNew
             match index with
             | None => true
             | Some i => Z.of_nat (length group) <=? i
             end) ;;;
   let updatedGroup := JsArray.of_list group in
   let updatedGroup :=
     match index with
     | Some i => JsArray.splice updatedGroup i 0 [Some directive]
     | None => JsArray.push updatedGroup (Some directive)
     end in
   onChange updatedGroup)%handler.

Definition removeDirective (index : Z) : Handler (St := State) unit :=
  (let updatedGroup := JsArray.filter (λ _ i, negb (i =? index)) group in
   onChange (JsArray.of_list updatedGroup) ;;;
   modify (setDeleteConfirmIndex None))%handler.

Definition handleDeleteClick (index : Z)
  : Handler (St := State) (Ev := list (option Directive)) unit :=
  modify (setDeleteConfirmIndex (Some index)).

Definition cancelDelete
  : Handler (St := State) (Ev := list (option Directive)) unit :=
  modify (setDeleteConfirmIndex None).

(** The modal's Delete button, [() => removeDirective(deleteConfirmIndex)];
    the modal is rendered only while [deleteConfirmIndex] is not [null]. *)
Definition confirmDelete : Handler (St := State) unit :=
  (let* st := read in
   match deleteConfirmIndex st with
   | Some index => removeDirective index
   | None => ret tt
   end)%handler.

Definition newIndex (index : Z) (direction : Direction) : Z :=
  match direction with
  | Up => index - 1
  | Down => index + 1
  end.

Definition moveDirective (index : Z) (direction : Direction)
  : Handler (St := State) unit :=
  let newIndex := newIndex index direction in
  if (newIndex <? 0) || (Z.of_nat (length group) <=? newIndex) then ret tt
  else
    let updatedGroup := JsArray.of_list group in
    (* the right-hand side of the destructuring swap is read first *)
    let fromNew := JsArray.get updatedGroup newIndex in
    let fromOld := JsArray.get updatedGroup index in
    let updatedGroup := JsArray.set updatedGroup index fromNew in
    let updatedGroup := JsArray.set updatedGroup newIndex fromOld in
    onChange updatedGroup.

Definition handleDragStart (index : Z)
  : Handler (St := State) (Ev := list (option Directive)) unit :=
  modify (setDraggedIndex (Some index)).

Definition handleDragOver (index : Z)
  : Handler (St := State) (Ev := list (option Directive)) unit :=
  modify (setDragOverIndex (Some index)).

Definition handleDragLeave
  : Handler (St := State) (Ev := list (option Directive)) unit :=
  modify (setDragOverIndex None).

(** [setDraggedIndex(null); setDragOverIndex(null)], the statements that
    [handleDragEnd] and both exits of [handleDrop] share. *)
Definition clearDrag
  : Handler (St := State) (Ev := list (option Directive)) unit :=
  (modify (setDraggedIndex None) ;;; modify (setDragOverIndex None))%handler.

Definition handleDragEnd
  : Handler (St := State) (Ev := list (option Directive)) unit :=
  clearDrag.

Definition handleDrop (dropIndex : Z) : Handler (St := State) unit :=
  (let* st := read in
   match draggedIndex st with
   | None => clearDrag
   | Some draggedIndex =>
       if draggedIndex =? dropIndex then clearDrag
       else
         let updatedGroup := JsArray.of_list group in
         let draggedItem := JsArray.get updatedGroup draggedIndex in
         let updatedGroup := JsArray.splice updatedGroup draggedIndex 1 [] in
         let insertIndex :=
           if draggedIndex <? dropIndex then dropIndex - 1 else dropIndex in
         let updatedGroup :=
           JsArray.splice updatedGroup insertIndex 0 [draggedItem] in
         onChange updatedGroup ;;; clearDrag
   end)%handler.
End Component.

(** *** The operations in the words of the specification *)
Section Spec.
Context {A : Type}.

(** Removing the element at a position. *)
Definition remove_at (n : nat) (l : list A) : list A := delete n l.

(** Inserting an element so that it ends up at a position. *)
Fixpoint insert_at (n : nat) (x : A) (l : list A) : list A :=
  match n, l with
  | O, _ => x :: l
  | S n', y :: l' => y :: insert_at n' x l'
  | S _, [] => [x]
  end.

(** Exchanging the elements at two positions. *)
Definition swap_at (i j : nat) (l : list A) : list A :=
  match l !! i, l !! j with
  | Some x, Some y => <[j := x]> (<[i := y]> l)
  | _, _ => l
  end.
End Spec.
End GroupList.

(** ** The schema in the words of the specification

    The default a field declares, if it declares one. *)
Definition declaredDefault (arg : ParamEditor.GroupEditorArgument)
  : option Value :=
  match ParamEditor.type arg with
  | ParamEditor.Dropdown _ (Given s) => Some (VString s)
  | ParamEditor.Text (Given s) _ => Some (VString s)
  | ParamEditor.Array (Given items) => Some (VArray items)
  | ParamEditor.Boolean (Given b) => Some (VBoolean b)
  | _ => None
  end.

(** The empty value of a field's type. *)
Definition emptyValue (arg : ParamEditor.GroupEditorArgument) : Value :=
  match ParamEditor.type arg with
  | ParamEditor.Dropdown _ _ => VString ""
  | ParamEditor.Text _ _ => VString ""
  | ParamEditor.Array _ => VArray []
  | ParamEditor.Boolean _ => VBoolean false
  end.

(** ** What the form controls receive *)

(** [String(v)] *)
Definition String_of (v : Value) : string :=
  match v with
  | VUndefined => "undefined"
  | VNull => "null"
  | VBoolean true => "true"
  | VBoolean false => "false"
  | VString s => s
  | VArray items => String.concat "," items
  end.

(** [Array.isArray(v) ? v : []] *)
Definition tags_of (v : Value) : list string :=
  match v with
  | VArray items => items
  | _ => []
  end.

(** ** Sample schemas *)
Module Sample.

Definition field (n : string) (t : ParamEditor.ArgumentType)
  : ParamEditor.GroupEditorArgument :=
  {| ParamEditor.name := n; ParamEditor.required := false;
     ParamEditor.description := None; ParamEditor.advanced := None;
     ParamEditor.type := t |}.

(** [{mode: dropdown, default "fast"; tags: array, default [];
     verbose: boolean, default false}] *)
Definition mode : ParamEditor.GroupEditorArgument :=
  field "mode" (ParamEditor.Dropdown ["fast"; "slow"] (Given "fast")).
Definition tags : ParamEditor.GroupEditorArgument :=
  field "tags" (ParamEditor.Array (Given [])).
Definition verbose : ParamEditor.GroupEditorArgument :=
  field "verbose" (ParamEditor.Boolean (Given false)).

(** Fields declared without a [defaultValue]. *)
Definition verbose_bare : ParamEditor.GroupEditorArgument :=
  field "verbose" (ParamEditor.Boolean Absent).
Definition tags_bare : ParamEditor.GroupEditorArgument :=
  field "tags" (ParamEditor.Array Absent).
Definition note_bare : ParamEditor.GroupEditorArgument :=
  field "note" (ParamEditor.Text Absent None).

(** Directives are opaque to the editor; the samples use strings, and an
    update function that lists the keys it was given. *)
Definition schema (args : list ParamEditor.GroupEditorArgument)
  : @ParamEditor.GroupEditor string unit :=
  {| ParamEditor.metadata := tt;
     ParamEditor.arguments := args;
     ParamEditor.updateDirective := λ params,
       {| ParamEditor.group := (map_to_list params).*1 |} |}.

Definition editor : @ParamEditor.GroupEditor string unit :=
  schema [mode; tags; verbose].

Definition defaults : gmap string Value :=
  <["mode" := VString "fast"]>
    (<["tags" := VArray []]> (<["verbose" := VBoolean false]> ∅)).
End Sample.

(** [v === undefined || v === null], the values [??] replaces. *)
Definition is_nullish (v : Value) : bool :=
  match v with
  | VUndefined | VNull => true
  | _ => false
  end.

(** ** What the simplified editor renders

    [renderArgument] and the two lists the component maps it over.  Of a
    form field the label, the description and the control with the value
    it is given are kept; class names, placeholders and the messages of
    the tag editor are left out. *)
Module ParamView.

Inductive Control : Type :=
  | Select (options : list string) (value : string)
  | ToggleButtonGroup (value : string)
  | TagEditor (tags : list string)
  | Textarea (value : string)
  | Input (value : string).

Record FormField : Type := {
  label : string;
  fieldDescription : option string;
  control : Control;
}.

(** An optional boolean used as a condition: [undefined] is falsy. *)
Definition truthy (flag : option bool) : bool := default false flag.

Section View.
Context {Directive Metadata : Type}.
Variable editorInfo : @ParamEditor.GroupEditor Directive Metadata.
Variable customParams : gmap string Value.

(** [null] is [None]. *)
Definition renderArgument (showAdvanced : bool)
    (arg : ParamEditor.GroupEditorArgument) : option FormField :=
  let currentValue := ParamEditor.currentValue editorInfo customParams arg in
  if truthy (ParamEditor.advanced arg) && negb showAdvanced then None
  else
    Some {| label := ParamEditor.name arg;
            fieldDescription := ParamEditor.description arg;
            control :=
              match ParamEditor.type arg with
              | ParamEditor.Dropdown options _ =>
                  Select options (String_of currentValue)
              | ParamEditor.Boolean _ =>
                  ToggleButtonGroup (String_of currentValue)
              | ParamEditor.Array _ => TagEditor (tags_of currentValue)
              | ParamEditor.Text _ multiline =>
                  if truthy multiline then Textarea (String_of currentValue)
                  else Input (String_of currentValue)
              end |}.

Definition basicArgs : list ParamEditor.GroupEditorArgument :=
  List.filter (λ arg, negb (truthy (ParamEditor.advanced arg)))
              (ParamEditor.arguments editorInfo).

Definition advancedArgs : list ParamEditor.GroupEditorArgument :=
  List.filter (λ arg, truthy (ParamEditor.advanced arg))
              (ParamEditor.arguments editorInfo).

(** The children of the two field blocks, in the order they are rendered:
    [basicArgs.map(renderArgument)], then, under
    [advancedArgs.length > 0] and [showAdvanced],
    [advancedArgs.map(renderArgument)]. *)
Definition renderedFields (showAdvanced : bool) : list (option FormField) :=
  (renderArgument showAdvanced <$> basicArgs) ++
  (if (0 <? length advancedArgs)%nat && showAdvanced
   then renderArgument showAdvanced <$> advancedArgs
   else []).

(** The "Show/Hide Advanced" button. *)
Definition toggleAdvanced
  : Handler (St := ParamEditor.State)
            (Ev := @ParamEditor.Event Directive) unit :=
  (let* st := read in
   modify (ParamEditor.setShowAdvanced
             (negb (ParamEditor.showAdvanced st))))%handler.

(** The [onChange] of each control. *)
Definition selectChange (arg : ParamEditor.GroupEditorArgument)
    (targetValue : string) : Handler (St := ParamEditor.State) unit :=
  ParamEditor.updateParameter editorInfo customParams
    (ParamEditor.name arg) (VString targetValue).

Definition toggleChange (arg : ParamEditor.GroupEditorArgument)
    (value : string) : Handler (St := ParamEditor.State) unit :=
  ParamEditor.updateParameter editorInfo customParams
    (ParamEditor.name arg) (VBoolean (String.eqb value "true")).

Definition tagsChange (arg : ParamEditor.GroupEditorArgument)
    (tags : list string) : Handler (St := ParamEditor.State) unit :=
  ParamEditor.updateParameter editorInfo customParams
    (ParamEditor.name arg) (VArray tags).

Definition textChange (arg : ParamEditor.GroupEditorArgument)
    (targetValue : string) : Handler (St := ParamEditor.State) unit :=
  ParamEditor.updateParameter editorInfo customParams
    (ParamEditor.name arg) (VString targetValue).
End View.

(** The initialising effect depends on [customParams]: it runs after the
    first render and after every render that received another
    [customParams]; [history] lists the values it ran with. *)
Section Effect.
Context {Directive Metadata : Type}.
Variable editorInfo : @ParamEditor.GroupEditor Directive Metadata.

Fixpoint effectRuns (history : list (gmap string Value))
  : Handler (St := ParamEditor.State) unit :=
  match history with
  | [] => ret tt
  | customParams :: later =>
      (ParamEditor.autoInitialize editorInfo customParams ;;;
       effectRuns later)%handler
  end.
End Effect.

(** An edit followed by the next render, the owner handing the reported
    params back as [customParams]: the control the field then shows. *)
Section Feedback.
Context {Directive Metadata : Type}.
Variable editorInfo : @ParamEditor.GroupEditor Directive Metadata.

Definition renderedAfter
    (edit : Handler (St := ParamEditor.State)
                    (Ev := @ParamEditor.Event Directive) unit)
    (st : ParamEditor.State) (showAdvanced : bool)
    (arg : ParamEditor.GroupEditorArgument) : option Control :=
  match calls edit st with
  | [ParamEditor.UpdateDirective _; ParamEditor.OnGroupChange _ reported] =>
      control <$> renderArgument editorInfo reported showAdvanced arg
  | _ => None
  end.
End Feedback.
End ParamView.

(** ** What the group list renders

    The parts of the rows that decide which handler can be reached with
    which index. *)
Module GroupView.
Section View.
Context {Directive : Type}.
Variable group : list Directive.

(** The indices [group.map] hands to its callback. *)
Definition rowIndices : list Z :=
  Z.of_nat <$> seq 0 (length group).

(** [disabled={index === 0}] and [disabled={index === group.length - 1}]. *)
Definition moveUpDisabled (index : Z) : bool := index =? 0.
Definition moveDownDisabled (index : Z) : bool :=
  index =? Z.of_nat (length group) - 1.

(** The [index] prop of every [AddDirectiveButton], top to bottom: the
    one button of an empty group, else the first button and the one
    after each row. *)
Definition addButtonIndices : list Z :=
  if (length group =? 0)%nat then [0]
  else 0 :: ((λ index, index + 1) <$> rowIndices).

(** The scroll effect, which runs when [group.length] changed.  The
    argument tells whether [lastDirectiveRef.current] is set; the timer
    it starts is recorded as a request. *)
Inductive ScrollRequest : Type := ScrollIntoView.

Definition scrollEffect (lastDirectiveRefCurrent : bool)
  : Handler (St := GroupList.State) (Ev := ScrollRequest) unit :=
  (let* st := read in
   if GroupList.shouldScrollToNew st && lastDirectiveRefCurrent then
     emit ScrollIntoView ;;;
     modify (GroupList.setShouldScrollToNew false)
   else ret tt)%handler.
End View.
End GroupView.

(** ** Limits of the array and record model

    An index is an array index only below 2^32 - 1: an assignment
    [a[i] = v] at or above it creates an ordinary property and leaves the
    length alone, which [JsArray.set] does not follow. *)
Definition max_array_index : Z := 4294967295.

(** The names every plain object inherits from [Object.prototype]; a
    lookup [obj[key]] at one of them finds the inherited property even
    when [obj] has no such key of its own, which [prop] does not
    follow. *)
Definition inherited_names : list string :=
  ["constructor"; "__proto__"; "hasOwnProperty"; "isPrototypeOf";
   "propertyIsEnumerable"; "toLocaleString"; "toString"; "valueOf";
   "__defineGetter__"; "__defineSetter__"; "__lookupGetter__";
   "__lookupSetter__"].

(** ** A sample form with an advanced field and a repeated name *)
Module SampleForm.

Definition log_level : ParamEditor.GroupEditorArgument :=
  {| ParamEditor.name := "log_level"; ParamEditor.required := false;
     ParamEditor.description := Some "How much to log";
     ParamEditor.advanced := Some true;
     ParamEditor.type :=
       ParamEditor.Dropdown ["info"; "debug"] (Given "info") |}.

Definition editor : @ParamEditor.GroupEditor string unit :=
  Sample.schema [Sample.mode; log_level; Sample.tags; Sample.verbose].

(** A second field called "mode" that declares no default. *)
Definition mode_again : ParamEditor.GroupEditorArgument :=
  Sample.field "mode" (ParamEditor.Text Absent None).

Definition repeated : @ParamEditor.GroupEditor string unit :=
  Sample.schema [Sample.tags; Sample.mode; mode_again].

Definition only_verbose : gmap string Value :=
  <["verbose" := VBoolean true]> ∅.
End SampleForm.

(** * Properties *)

(** ** Arrays *)
Section ArrayFacts.
Context {A : Type}.
Implicit Types (l : list A) (a : list (option A)) (i k : Z).

Lemma length_of_list l : length (JsArray.of_list l) = length l.
Proof. unfold JsArray.of_list. apply length_fmap. Qed.

Lemma get_negative a i : i < 0 → JsArray.get a i = None.
Proof.
  intros Hi. unfold JsArray.get.
  by destruct (Z.ltb_spec i 0); [|lia].
Qed.

Lemma get_nonneg a i :
  0 ≤ i → JsArray.get a i = default None (a !! Z.to_nat i).
Proof.
  intros Hi. unfold JsArray.get.
  by destruct (Z.ltb_spec i 0); [lia|].
Qed.

Lemma get_beyond a i : Z.of_nat (length a) ≤ i → JsArray.get a i = None.
Proof.
  intros Hi. rewrite get_nonneg by lia.
  rewrite lookup_ge_None_2; [done | lia].
Qed.

Lemma get_of_list l i :
  0 ≤ i → JsArray.get (JsArray.of_list l) i = l !! Z.to_nat i.
Proof.
  intros Hi. rewrite get_nonneg by done.
  unfold JsArray.of_list. rewrite list_lookup_fmap.
  by destruct (l !! Z.to_nat i).
Qed.

(** Reading a slot after an assignment. *)
Lemma get_set a i v k :
  0 ≤ k →
  JsArray.get (JsArray.set a i v) k = if k =? i then v else JsArray.get a k.
Proof.
  intros Hk. unfold JsArray.set.
  destruct (Z.ltb_spec i 0) as [Hneg|Hpos].
  { destruct (Z.eqb_spec k i); [lia | done]. }
  rewrite !get_nonneg by done.
  destruct (Nat.ltb_spec (Z.to_nat i) (length a)) as [Hin|Hout].
  - destruct (Z.eqb_spec k i) as [->|Hne].
    + by rewrite list_lookup_insert_eq.
    + rewrite list_lookup_insert_ne; [done | lia].
  - destruct (Z.eqb_spec k i) as [->|Hne].
    + rewrite lookup_app_r by lia.
      rewrite lookup_app_r by (rewrite length_replicate; lia).
      rewrite length_replicate.
      by replace (Z.to_nat i - length a - (Z.to_nat i - length a))%nat
        with 0%nat by lia.
    + destruct (decide (Z.to_nat k < length a)%nat) as [Hlt|Hge].
      * by rewrite lookup_app_l.
      * rewrite lookup_app_r by lia.
        rewrite (lookup_ge_None_2 a) by lia.
        destruct (decide (Z.to_nat k < Z.to_nat i)%nat) as [Hmid|Hpast].
        -- rewrite lookup_app_l by (rewrite length_replicate; lia).
           rewrite lookup_replicate_2; [done | lia].
        -- rewrite lookup_ge_None_2; [done |].
           rewrite length_app, length_replicate. simpl. lia.
Qed.

(** An assignment inside a dense array is a list update. *)
Lemma set_of_list l i x :
  0 ≤ i < Z.of_nat (length l) →
  JsArray.set (JsArray.of_list l) i (Some x)
  = JsArray.of_list (<[Z.to_nat i := x]> l).
Proof.
  intros Hi. unfold JsArray.set.
  destruct (Z.ltb_spec i 0); [lia|].
  rewrite length_of_list.
  destruct (Nat.ltb_spec (Z.to_nat i) (length l)); [|lia].
  unfold JsArray.of_list. by rewrite list_fmap_insert.
Qed.

(** [splice(i, 1)] inside a dense array deletes position [i]. *)
Lemma splice_remove l i :
  0 ≤ i < Z.of_nat (length l) →
  JsArray.splice (JsArray.of_list l) i 1 []
  = JsArray.of_list (GroupList.remove_at (Z.to_nat i) l).
Proof.
  intros Hi. unfold JsArray.splice, GroupList.remove_at.
  rewrite length_of_list.
  destruct (Z.ltb_spec i 0); [lia|].
  rewrite Z.min_l by lia.
  rewrite (Z.max_l 1 0) by lia. rewrite Z.min_l by lia.
  replace (Z.to_nat (i + 1)) with (S (Z.to_nat i)) by lia.
  unfold JsArray.of_list. simpl.
  rewrite <- fmap_take, <- fmap_drop, <- fmap_app.
  f_equal. symmetry. apply delete_take_drop.
Qed.

Lemma insert_at_take_drop (n : nat) (x : A) l :
  (n ≤ length l)%nat →
  GroupList.insert_at n x l = take n l ++ x :: drop n l.
Proof.
  revert l. induction n as [|n IH]; intros l Hn.
  - by rewrite take_0, drop_0.
  - destruct l as [|y l]; simpl in *; [lia|].
    f_equal. apply IH. lia.
Qed.

(** [splice(i, 0, x)] up to the end of a dense array inserts at [i]. *)
Lemma splice_insert l i x :
  0 ≤ i ≤ Z.of_nat (length l) →
  JsArray.splice (JsArray.of_list l) i 0 [Some x]
  = JsArray.of_list (GroupList.insert_at (Z.to_nat i) x l).
Proof.
  intros Hi. unfold JsArray.splice.
  rewrite length_of_list.
  destruct (Z.ltb_spec i 0); [lia|].
  rewrite Z.min_l by lia.
  rewrite (Z.max_l 0 0) by lia. rewrite Z.min_l by lia.
  rewrite Z.add_0_r.
  rewrite insert_at_take_drop by lia.
  unfold JsArray.of_list.
  rewrite fmap_app, fmap_cons, fmap_take, fmap_drop. done.
Qed.

(** Filtering out one position. *)
Lemma filter_from_other l i from :
  i < from ∨ from + Z.of_nat (length l) ≤ i →
  JsArray.filter_from (λ _ k, negb (k =? i)) from l = l.
Proof.
  revert from. induction l as [|x l IH]; intros from Hi; [done|].
  simpl in *. destruct (Z.eqb_spec from i); [lia|]. simpl.
  f_equal. apply IH. lia.
Qed.

Lemma filter_from_remove l i from :
  from ≤ i < from + Z.of_nat (length l) →
  JsArray.filter_from (λ _ k, negb (k =? i)) from l
  = GroupList.remove_at (Z.to_nat (i - from)) l.
Proof.
  revert from. induction l as [|x l IH]; intros from Hi; simpl in *; [lia|].
  destruct (Z.eqb_spec from i) as [->|Hne]; simpl.
  - rewrite Z.sub_diag. simpl.
    apply filter_from_other. lia.
  - replace (Z.to_nat (i - from)) with (S (Z.to_nat (i - (from + 1)))) by lia.
    simpl. f_equal. apply IH. lia.
Qed.
End ArrayFacts.

(** ** The group list editor *)
Section GroupListFacts.
Context {Directive : Type}.
Implicit Types (group : list Directive) (st : GroupList.State).
Implicit Types (index dropIndex k : Z) (d : Directive).

Import GroupList.

Ltac run_handler :=
  unfold calls, state_after, handleDirectiveChange, addDirective,
    removeDirective, confirmDelete, cancelDelete, moveDirective,
    handleDrop, clearDrag, onChange, bind, ret, emit, modify, read;
  simpl.

Lemma swap_at_in_range group (i j : nat) x y :
  group !! i = Some x → group !! j = Some y →
  swap_at i j group = <[j := x]> (<[i := y]> group).
Proof. intros Hi Hj. unfold swap_at. by rewrite Hi, Hj. Qed.

Lemma length_insert_at {A} (n : nat) (x : A) (l : list A) :
  length (insert_at n x l) = S (length l).
Proof.
  revert l. induction n as [|n IH]; intros [|y l]; simpl; try done.
  by rewrite IH.
Qed.

Lemma lookup_insert_at {A} (n : nat) (x : A) (l : list A) :
  (n ≤ length l)%nat → insert_at n x l !! n = Some x.
Proof.
  revert l. induction n as [|n IH]; intros [|y l] Hn; simpl in *;
    try done; try lia.
  apply IH. lia.
Qed.

Lemma remove_insert_at {A} (n : nat) (x : A) (l : list A) :
  (n ≤ length l)%nat → remove_at n (insert_at n x l) = l.
Proof.
  unfold remove_at.
  revert l. induction n as [|n IH]; intros [|y l] Hn; simpl in *;
    try done; try lia.
  f_equal. apply IH. lia.
Qed.

Lemma length_remove_at {A} (n : nat) (l : list A) :
  (n < length l)%nat → S (length (remove_at n l)) = length l.
Proof.
  intros Hn. unfold remove_at.
  rewrite length_delete by (by apply lookup_lt_is_Some_2). lia.
Qed.

(** C3 (moveDirective).  The target is [index - 1] for "up" and
    [index + 1] for "down".  A target outside [0, len) makes the handler
    return at once: no call of [onChange], state untouched.  Otherwise
    [onChange] is called once with an array that holds at [index] what
    [group] held at the target, at the target what [group] held at
    [index], and at every other position what [group] held there; for
    an [index] inside the group this array is the group with the two
    elements exchanged, of the same length. *)
Theorem moveDirective_swaps_neighbours group st index direction :
  let len := Z.of_nat (length group) in
  let target := newIndex index direction in
  let old := JsArray.of_list group in
  (direction = Up → target = index - 1) ∧
  (direction = Down → target = index + 1) ∧
  (target < 0 ∨ len ≤ target →
     calls (moveDirective group index direction) st = [] ∧
     state_after (moveDirective group index direction) st = st) ∧
  (0 ≤ target < len →
     ∃ updated,
       calls (moveDirective group index direction) st = [updated] ∧
       state_after (moveDirective group index direction) st = st ∧
       (∀ k, 0 ≤ k →
          JsArray.get updated k =
            if k =? index then JsArray.get old target
            else if k =? target then JsArray.get old index
            else JsArray.get old k) ∧
       (0 ≤ index < len →
          updated = JsArray.of_list
                      (swap_at (Z.to_nat index) (Z.to_nat target) group) ∧
          length updated = length group ∧
          JsArray.get updated index = group !! Z.to_nat target ∧
          JsArray.get updated target = group !! Z.to_nat index)).
Proof.
  intros len target old. subst len target old.
  split; [by intros ->|]. split; [by intros ->|].
  set (target := newIndex index direction).
  assert (Hneq : target ≠ index) by (subst target; destruct direction; simpl; lia).
  split.
  - intros Hout. run_handler. fold target.
    destruct (Z.ltb_spec target 0); simpl; [done|].
    destruct (Z.leb_spec (Z.of_nat (length group)) target); simpl; [done|lia].
  - intros Hin. eexists. run_handler. fold target.
    destruct (Z.ltb_spec target 0); simpl; [lia|].
    destruct (Z.leb_spec (Z.of_nat (length group)) target); simpl; [lia|].
    split; [reflexivity|]. split; [reflexivity|]. split.
    + intros k Hk. rewrite !get_set by done.
      destruct (Z.eqb_spec k target) as [->|Hkt].
      * by destruct (Z.eqb_spec target index).
      * done.
    + intros Hidx.
      destruct (lookup_lt_is_Some_2 group (Z.to_nat index)) as [x Hx]; [lia|].
      destruct (lookup_lt_is_Some_2 group (Z.to_nat target)) as [y Hy]; [lia|].
      rewrite (swap_at_in_range _ _ _ _ _ Hx Hy).
      rewrite !get_of_list by lia. rewrite Hx, Hy.
      rewrite set_of_list by lia.
      rewrite set_of_list by (rewrite length_insert; lia).
      split; [done|]. split.
      * by rewrite length_of_list, !length_insert.
      * rewrite !get_of_list by lia.
        rewrite list_lookup_insert_ne by lia.
        rewrite list_lookup_insert_eq by lia.
        rewrite list_lookup_insert_eq by (rewrite length_insert; lia).
        done.
Qed.

(** C9 (handleDirectiveChange).  For an index inside the group the
    handler calls [onChange] once with an array of the same length that
    holds the new directive at the index and, at every other position,
    what the group held there. *)
Theorem handleDirectiveChange_replaces_one group st index d :
  0 ≤ index < Z.of_nat (length group) →
  ∃ updated,
    calls (handleDirectiveChange group index d) st = [updated] ∧
    state_after (handleDirectiveChange group index d) st = st ∧
    updated = JsArray.of_list (<[Z.to_nat index := d]> group) ∧
    length updated = length group ∧
    JsArray.get updated index = Some d ∧
    (∀ k, k ≠ index →
       JsArray.get updated k = JsArray.get (JsArray.of_list group) k).
Proof.
  intros Hidx. eexists. run_handler.
  split; [reflexivity|]. split; [reflexivity|].
  split; [by apply set_of_list|].
  split.
  { rewrite set_of_list by done. by rewrite length_of_list, length_insert. }
  split.
  { rewrite get_set by lia. by rewrite Z.eqb_refl. }
  intros k Hk. destruct (Z.lt_ge_cases k 0) as [Hneg|Hpos].
  - by rewrite !get_negative.
  - rewrite get_set by done. by destruct (Z.eqb_spec k index).
Qed.

(** C10 (removeDirective, index outside the group).  The handler is a
    total function; for an index outside [0, len) it calls [onChange]
    once with all the elements of the group, none removed, and clears
    [deleteConfirmIndex]. *)
Theorem removeDirective_out_of_range group st index :
  index < 0 ∨ Z.of_nat (length group) ≤ index →
  calls (removeDirective group index) st = [JsArray.of_list group] ∧
  state_after (removeDirective group index) st
    = setDeleteConfirmIndex None st ∧
  deleteConfirmIndex (state_after (removeDirective group index) st) = None.
Proof.
  intros Hout. run_handler. unfold JsArray.filter.
  rewrite filter_from_other by lia. done.
Qed.

(** C4 (confirmDelete, cancelDelete).  With [deleteConfirmIndex] an
    index inside the group, the Delete button calls [onChange] once with
    the group without the element at that index, one shorter, and clears
    [deleteConfirmIndex]; Cancel calls nothing and only clears
    [deleteConfirmIndex]. *)
Theorem confirmDelete_removes_pending group st index :
  deleteConfirmIndex st = Some index →
  0 ≤ index < Z.of_nat (length group) →
  let remaining := remove_at (Z.to_nat index) group in
  (calls (confirmDelete group) st = [JsArray.of_list remaining] ∧
   S (length remaining) = length group ∧
   (∀ j : nat, (j < Z.to_nat index)%nat → remaining !! j = group !! j) ∧
   (∀ j : nat, (Z.to_nat index ≤ j)%nat → remaining !! j = group !! S j) ∧
   state_after (confirmDelete group) st = setDeleteConfirmIndex None st ∧
   deleteConfirmIndex (state_after (confirmDelete group) st) = None) ∧
  (calls cancelDelete st = @nil (list (option Directive)) ∧
   state_after (Ev := list (option Directive)) cancelDelete st
     = setDeleteConfirmIndex None st ∧
   deleteConfirmIndex
     (state_after (Ev := list (option Directive)) cancelDelete st) = None).
Proof.
  intros Hpending Hidx remaining. subst remaining. split.
  - run_handler. rewrite Hpending. simpl. unfold JsArray.filter.
    rewrite filter_from_remove by lia. rewrite Z.sub_0_r.
    split; [done|]. split; [apply length_remove_at; lia|].
    split; [intros j Hj; by apply list_lookup_delete_lt|].
    split; [intros j Hj; by apply list_lookup_delete_ge|].
    done.
  - by run_handler.
Qed.

(** C5 (addDirective).  Without an index the directive is appended;
    with index 0 it is put first; with an index [k] in [0, len] the
    reported sequence is one longer, holds the directive at position
    [k], and is the group again once that position is taken out. *)
Theorem addDirective_inserts_at group st d :
  calls (addDirective group d None) st = [JsArray.of_list (group ++ [d])] ∧
  calls (addDirective group d (Some 0)) st = [JsArray.of_list (d :: group)] ∧
  (∀ k, 0 ≤ k ≤ Z.of_nat (length group) →
     ∃ updated : list Directive,
       calls (addDirective group d (Some k)) st = [JsArray.of_list updated] ∧
       updated = take (Z.to_nat k) group ++ d :: drop (Z.to_nat k) group ∧
       length updated = S (length group) ∧
       updated !! Z.to_nat k = Some d ∧
       remove_at (Z.to_nat k) updated = group).
Proof.
  split; [|split].
  - run_handler. unfold JsArray.push, JsArray.of_list.
    by rewrite fmap_app.
  - run_handler. rewrite splice_insert by lia. done.
  - intros k Hk. exists (insert_at (Z.to_nat k) d group).
    split; [run_handler; by rewrite splice_insert|].
    split; [apply insert_at_take_drop; lia|].
    split; [apply length_insert_at|].
    split; [apply lookup_insert_at; lia|].
    apply remove_insert_at. lia.
Qed.

(** C1 (handleDrop).  In every case both drag indices are cleared:
    after the handler [draggedIndex] and [dragOverIndex] are [None], and
    every other field of the state is as it was.  Without a drag source, or when
    the drop target is the drag source, [onChange] is not called.  With
    drag source [a] and target [b] both inside the group, [onChange] is
    called once: for [a < b] with the group after removing the element
    at [a] and inserting it at position [b - 1], for [a > b] after
    removing it and inserting it at position [b]. *)
Theorem handleDrop_moves_dragged group st dropIndex :
  let len := Z.of_nat (length group) in
  let reported := calls (handleDrop group dropIndex) st in
  let after := state_after (handleDrop group dropIndex) st in
  after = setDragOverIndex None (setDraggedIndex None st) ∧
  draggedIndex after = None ∧
  dragOverIndex after = None ∧
  isExpanded after = isExpanded st ∧
  deleteConfirmIndex after = deleteConfirmIndex st ∧
  shouldScrollToNew after = shouldScrollToNew st ∧
  (draggedIndex st = None → reported = []) ∧
  (draggedIndex st = Some dropIndex → reported = []) ∧
  (∀ a, draggedIndex st = Some a → 0 ≤ a < len → 0 ≤ dropIndex < len →
     ∃ x, group !! Z.to_nat a = Some x ∧
       (a < dropIndex →
          let moved := insert_at (Z.to_nat (dropIndex - 1)) x
                         (remove_at (Z.to_nat a) group) in
          reported = [JsArray.of_list moved] ∧
          length moved = length group ∧
          moved !! Z.to_nat (dropIndex - 1) = Some x ∧
          remove_at (Z.to_nat (dropIndex - 1)) moved
            = remove_at (Z.to_nat a) group) ∧
       (dropIndex < a →
          let moved := insert_at (Z.to_nat dropIndex) x
                         (remove_at (Z.to_nat a) group) in
          reported = [JsArray.of_list moved] ∧
          length moved = length group ∧
          moved !! Z.to_nat dropIndex = Some x ∧
          remove_at (Z.to_nat dropIndex) moved
            = remove_at (Z.to_nat a) group)).
Proof.
  intros len reported after. subst len reported after.
  assert (Hfields : ∀ {X} (field : State → X) (expected : X),
    field (setDragOverIndex None (setDraggedIndex None st)) = expected →
    field (state_after (handleDrop group dropIndex) st) = expected).
  { intros X field expected <-. f_equal. run_handler.
    destruct (draggedIndex st) as [a|]; simpl; [|done].
    by destruct (Z.eqb_spec a dropIndex). }
  split; [by apply (Hfields _ id)|].
  split; [by apply Hfields|]. split; [by apply Hfields|].
  split; [by apply Hfields|]. split; [by apply Hfields|].
  split; [by apply Hfields|].
  split; [|split].
  - intros Hnone. run_handler. by rewrite Hnone.
  - intros Hsame. run_handler. rewrite Hsame. simpl.
    by rewrite Z.eqb_refl.
  - intros a Hdrag Ha Hb.
    destruct (lookup_lt_is_Some_2 group (Z.to_nat a)) as [x Hx]; [lia|].
    exists x. split; [done|].
    pose proof (length_remove_at (Z.to_nat a) group ltac:(lia)) as Hlen.
    assert (Hrun : a ≠ dropIndex →
      calls (handleDrop group dropIndex) st
      = [JsArray.of_list
           (insert_at (Z.to_nat (if a <? dropIndex then dropIndex - 1
                                 else dropIndex)) x
              (remove_at (Z.to_nat a) group))]).
    { intros Hne. run_handler. rewrite Hdrag. simpl.
      destruct (Z.eqb_spec a dropIndex); [done|]. simpl.
      rewrite get_of_list by lia. rewrite Hx.
      rewrite splice_remove by lia.
      rewrite splice_insert; [done|].
      destruct (Z.ltb_spec a dropIndex); lia. }
    split; intros Hlt moved; subst moved.
    + rewrite Hrun by lia.
      destruct (Z.ltb_spec a dropIndex); [|lia].
      split; [done|]. split; [rewrite length_insert_at; lia|].
      split; [apply lookup_insert_at; lia | apply remove_insert_at; lia].
    + rewrite Hrun by lia.
      destruct (Z.ltb_spec a dropIndex); [lia|].
      split; [done|]. split; [rewrite length_insert_at; lia|].
      split; [apply lookup_insert_at; lia | apply remove_insert_at; lia].
Qed.
End GroupListFacts.

(** ** The registry *)
Section RegistryFacts.
Context {Directive Metadata : Type}.
Implicit Types (reg : @Registry.Registry Directive Metadata).
Implicit Types (editor : @ParamEditor.GroupEditor Directive Metadata).
Implicit Types (name : string).

Import Registry.

Lemma getGroupEditor_register_same reg name editor :
  getGroupEditor name (registerGroupEditor name editor reg) = Some editor.
Proof. unfold getGroupEditor, registerGroupEditor. simpl. apply lookup_insert_eq. Qed.

Lemma getGroupEditor_register_other reg name other editor :
  other ≠ name →
  getGroupEditor name (registerGroupEditor other editor reg)
  = getGroupEditor name reg.
Proof.
  intros Hne. unfold getGroupEditor, registerGroupEditor. simpl.
  by apply lookup_insert_ne.
Qed.

Lemma getGroupEditor_registerAll_other
    (regs : list (string * @ParamEditor.GroupEditor Directive Metadata))
    reg name :
  name ∉ regs.*1 →
  getGroupEditor name (registerAll regs reg) = getGroupEditor name reg.
Proof.
  revert reg. induction regs as [|[other editor] regs IH]; intros reg Hnot;
    [done|].
  rewrite fmap_cons in Hnot. apply not_elem_of_cons in Hnot as [Hne Hrest].
  unfold registerAll in *. simpl. rewrite IH by done.
  apply getGroupEditor_register_other. by intros ->.
Qed.

Lemma registerAll_app
    (regs1 regs2 : list (string * @ParamEditor.GroupEditor Directive Metadata))
    reg :
  registerAll (regs1 ++ regs2) reg = registerAll regs2 (registerAll regs1 reg).
Proof. unfold registerAll. apply foldl_app. Qed.

(** C8 (registerGroupEditor, getGroupEditor).  A name that no
    registration since module load has used is absent; a lookup right
    after a registration returns the registered editor; of two
    registrations under one name the later one is returned, whatever
    other names were registered before, between or after them. *)
Theorem getGroupEditor_last_registration_wins :
  (∀ (regs : list (string * @ParamEditor.GroupEditor Directive Metadata)) name,
     name ∉ regs.*1 →
     getGroupEditor name (registerAll regs loaded) = None) ∧
  (∀ reg name editor,
     getGroupEditor name (registerGroupEditor name editor reg) = Some editor) ∧
  (∀ reg name first second,
     getGroupEditor name
       (registerGroupEditor name second (registerGroupEditor name first reg))
     = Some second) ∧
  (∀ (before after : list (string * @ParamEditor.GroupEditor Directive Metadata))
     reg name editor,
     name ∉ after.*1 →
     getGroupEditor name (registerAll (before ++ (name, editor) :: after) reg)
     = Some editor).
Proof.
  split; [|split; [|split]].
  - intros regs name Hnot.
    rewrite getGroupEditor_registerAll_other by done.
    unfold getGroupEditor, loaded. simpl. apply lookup_empty.
  - intros. apply getGroupEditor_register_same.
  - intros. apply getGroupEditor_register_same.
  - intros before after reg name editor Hnot.
    rewrite registerAll_app.
    change (registerAll ((name, editor) :: after) ?r)
      with (registerAll after (registerGroupEditor name editor r)).
    rewrite getGroupEditor_registerAll_other by done.
    apply getGroupEditor_register_same.
Qed.
End RegistryFacts.

(** ** The simplified parameter editor *)
Section ParamEditorFacts.
Context {Directive Metadata : Type}.
Implicit Types (editorInfo : @ParamEditor.GroupEditor Directive Metadata).
Implicit Types (arg : ParamEditor.GroupEditorArgument).
Implicit Types (params customParams : gmap string Value).

Import ParamEditor.

(** What [getDefaultParams] adds for a field is the default the field
    declares. *)
Lemma addDefault_declared params arg :
  addDefault params arg
  = match declaredDefault arg with
    | Some v => <[name arg := v]> params
    | None => params
    end.
Proof.
  unfold addDefault, declaredDefault, hasDefaultValue, defaultValue.
  destruct (type arg) as [? [| |?]|[| |?] ?|[| |?]|[| |?]]; done.
Qed.

Lemma foldl_addDefault_other params (args : list GroupEditorArgument) key :
  key ∉ name <$> args →
  foldl addDefault params args !! key = params !! key.
Proof.
  revert params. induction args as [|arg args IH]; intros params Hnot;
    [done|].
  rewrite fmap_cons in Hnot. apply not_elem_of_cons in Hnot as [Hne Hrest].
  simpl. rewrite IH by done. rewrite addDefault_declared.
  destruct (declaredDefault arg); [|done].
  by apply lookup_insert_ne.
Qed.

Lemma foldl_addDefault_field params (args : list GroupEditorArgument) arg :
  NoDup (name <$> args) → arg ∈ args → params !! name arg = None →
  foldl addDefault params args !! name arg = declaredDefault arg.
Proof.
  revert params. induction args as [|first args IH];
    intros params Hnodup Hin Hfresh.
  { by apply elem_of_nil in Hin. }
  rewrite fmap_cons in Hnodup. apply NoDup_cons in Hnodup as [Hfirst Hnodup].
  simpl. apply elem_of_cons in Hin as [->|Hin].
  - rewrite foldl_addDefault_other by done.
    rewrite addDefault_declared.
    destruct (declaredDefault first); [apply lookup_insert_eq | done].
  - apply IH; [done..|].
    rewrite addDefault_declared.
    destruct (declaredDefault first); [|done].
    rewrite lookup_insert_ne; [done|].
    intros Heq. apply Hfirst. rewrite Heq.
    by apply list_elem_of_fmap_2.
Qed.

Ltac run_editor :=
  unfold calls, state_after, autoInitialize, updateParameter,
    callUpdateDirective, onChangeWrapper, bind, ret, emit, modify, read;
  simpl.

(** C6 (auto-initialisation).  Mounted with an empty [customParams], the
    effect calls the schema's [updateDirective] exactly once, with the
    default params, and then [onChange] once with the group it returned
    and those params; a later run of the effect calls nothing.  The
    default params map each field of a schema with distinct names to the
    default it declares, and hold no other key.  For the schema
    [{mode: "fast", tags: [], verbose: false}] they are exactly that
    mapping. *)
Theorem autoInitialize_reports_defaults editorInfo :
  let defaults := getDefaultParams editorInfo in
  let first := autoInitialize editorInfo ∅ in
  calls first mounted
    = [UpdateDirective defaults;
       OnGroupChange (group (updateDirective editorInfo defaults)) defaults] ∧
  initializedRef (state_after first mounted) = true ∧
  calls (autoInitialize editorInfo ∅) (state_after first mounted) = [] ∧
  (NoDup (name <$> arguments editorInfo) →
   ∀ arg, arg ∈ arguments editorInfo →
     defaults !! name arg = declaredDefault arg) ∧
  (∀ key, key ∉ name <$> arguments editorInfo → defaults !! key = None) ∧
  getDefaultParams Sample.editor = Sample.defaults ∧
  calls (autoInitialize Sample.editor ∅) mounted
    = [UpdateDirective Sample.defaults;
       OnGroupChange
         (group (updateDirective Sample.editor Sample.defaults))
         Sample.defaults].
Proof.
  intros defaults first. subst defaults first.
  assert (Hsample : getDefaultParams Sample.editor = Sample.defaults).
  { apply map_eq. intros key. unfold getDefaultParams, Sample.defaults. simpl.
    unfold addDefault. simpl.
    destruct (decide (key = "mode")) as [->|?]; [done|].
    destruct (decide (key = "tags")) as [->|?]; [done|].
    destruct (decide (key = "verbose")) as [->|?]; [done|].
    by rewrite !lookup_insert_ne. }
  split; [by run_editor|]. split; [by run_editor|]. split; [by run_editor|].
  split.
  { intros Hnodup arg Hin. unfold getDefaultParams.
    apply foldl_addDefault_field; [done..|apply lookup_empty]. }
  split.
  { intros key Hnot. unfold getDefaultParams.
    rewrite foldl_addDefault_other by done. apply lookup_empty. }
  split; [done|].
  run_editor. by rewrite Hsample.
Qed.

(** C7 (updateParameter).  Editing field [key] to [value] calls the
    schema's [updateDirective] with, and reports to [onChange], the
    current params with [key] bound to [value] and every other key as it
    was, together with the group [updateDirective] returned for that
    mapping. *)
Theorem updateParameter_rebinds_one_key editorInfo customParams
    (st : ParamEditor.State) key value :
  let current := currentParams editorInfo customParams in
  ∃ updatedParams,
    calls (updateParameter editorInfo customParams key value) st
      = [UpdateDirective updatedParams;
         OnGroupChange (group (updateDirective editorInfo updatedParams))
                       updatedParams] ∧
    state_after (updateParameter editorInfo customParams key value) st = st ∧
    updatedParams = <[key := value]> current ∧
    updatedParams !! key = Some value ∧
    (∀ other, other ≠ key → updatedParams !! other = current !! other).
Proof.
  intros current. eexists. run_editor.
  split; [reflexivity|]. split; [reflexivity|]. split; [reflexivity|].
  split; [apply lookup_insert_eq|].
  intros other Hne. by apply lookup_insert_ne.
Qed.
End ParamEditorFacts.

(** ** The value a field shows *)
Section FieldValueFacts.
Implicit Types (arg : ParamEditor.GroupEditorArgument).

Import ParamEditor.

(** A field written without a [defaultValue] property: the fallback is
    the empty string, whatever the field's type. *)
Lemma getDefaultValue_absent arg :
  hasDefaultValue arg = false → getDefaultValue arg = VString "".
Proof.
  intros Habsent. unfold getDefaultValue. rewrite Habsent.
  by rewrite !andb_false_r.
Qed.

(** A text, array or boolean field whose [defaultValue] property is there
    but holds [undefined]: the fallback is the empty value of the type. *)
Lemma getDefaultValue_undefined arg :
  hasDefaultValue arg = true → defaultValue arg = VUndefined →
  isBoolean arg || isText arg || isArray arg = true →
  getDefaultValue arg = emptyValue arg.
Proof.
  unfold getDefaultValue, emptyValue, hasDefaultValue, defaultValue,
    isBoolean, isText, isArray.
  destruct (type arg) as [? d|d ?|d|d]; simpl;
    intros Hpresent Hundef Htype; try done;
    by rewrite Hpresent, Hundef.
Qed.

(** C2 (getDefaultValue), evaluated on fields declared without a
    default, in an editor mounted without custom params: the boolean
    field gets the empty string, not [false], and its toggle is handed
    [""]; the array field gets the empty string, not the empty list; the
    text field gets the empty string. *)
Theorem currentValue_of_bare_fields :
  currentValue (Sample.schema [Sample.verbose_bare]) ∅ Sample.verbose_bare
    = VString "" ∧
  emptyValue Sample.verbose_bare = VBoolean false ∧
  String_of
    (currentValue (Sample.schema [Sample.verbose_bare]) ∅ Sample.verbose_bare)
    = "" ∧
  String_of (emptyValue Sample.verbose_bare) = "false" ∧
  currentValue (Sample.schema [Sample.tags_bare]) ∅ Sample.tags_bare
    = VString "" ∧
  emptyValue Sample.tags_bare = VArray [] ∧
  currentValue (Sample.schema [Sample.note_bare]) ∅ Sample.note_bare
    = VString "".
Proof. repeat split. Qed.

(** The typed fallback is reached when the property is written out with
    [undefined]. *)
Example currentValue_of_undefined_boolean :
  let arg := Sample.field "verbose" (Boolean Undefined) in
  currentValue (Sample.schema [arg]) ∅ arg = VBoolean false.
Proof. reflexivity. Qed.
End FieldValueFacts.

(** ** The theorems at concrete inputs *)
Section Instances.
Import GroupList.

Ltac by_decide := apply (bool_decide_unpack _); vm_compute; exact I.

Lemma handleDrop_moves_dragged_witness :
  calls (handleDrop ["a"; "b"; "c"; "d"] 3)
        (setDragOverIndex (Some 3) (setDraggedIndex (Some 0) mounted))
    = [JsArray.of_list ["b"; "c"; "a"; "d"]] ∧
  draggedIndex
    (state_after (handleDrop ["a"; "b"; "c"; "d"] 3)
       (setDragOverIndex (Some 3) (setDraggedIndex (Some 0) mounted)))
    = None ∧
  dragOverIndex
    (state_after (handleDrop ["a"; "b"; "c"; "d"] 3)
       (setDragOverIndex (Some 3) (setDraggedIndex (Some 0) mounted)))
    = None.
Proof.
  destruct (handleDrop_moves_dragged ["a"; "b"; "c"; "d"]
              (setDragOverIndex (Some 3) (setDraggedIndex (Some 0) mounted))
              3)
    as (_ & Hdragged & Hover & _ & _ & _ & _ & _ & Hmove).
  split; [|split; [exact Hdragged | exact Hover]].
  destruct (Hmove 0) as (x & Hx & Hlt & _);
    [reflexivity | simpl; lia | simpl; lia |].
  destruct Hlt as (Hreported & _); [lia|].
  simpl in Hx. injection Hx as <-. exact Hreported.
Defined.

Lemma moveDirective_swaps_neighbours_witness :
  calls (moveDirective ["a"; "b"; "c"] 1 Down) mounted
    = [JsArray.of_list ["a"; "c"; "b"]] ∧
  calls (moveDirective ["a"; "b"; "c"] 0 Up) mounted = [].
Proof.
  split.
  - destruct (moveDirective_swaps_neighbours ["a"; "b"; "c"] mounted 1 Down)
      as (_ & _ & _ & Hin).
    destruct Hin as (updated & Hcalls & _ & _ & Hswap); [simpl; lia|].
    destruct Hswap as (-> & _); [simpl; lia|]. exact Hcalls.
  - destruct (moveDirective_swaps_neighbours ["a"; "b"; "c"] mounted 0 Up)
      as (_ & _ & Hout & _).
    destruct Hout as (Hcalls & _); [simpl; lia|]. exact Hcalls.
Defined.

Lemma confirmDelete_removes_pending_witness :
  calls (confirmDelete ["a"; "b"; "c"])
        (setDeleteConfirmIndex (Some 1) mounted)
    = [JsArray.of_list ["a"; "c"]] ∧
  calls (Ev := list (option string)) cancelDelete
        (setDeleteConfirmIndex (Some 1) mounted) = [].
Proof.
  destruct (confirmDelete_removes_pending ["a"; "b"; "c"]
              (setDeleteConfirmIndex (Some 1) mounted) 1)
    as ((Hcalls & _) & (Hcancel & _)); [reflexivity | simpl; lia |].
  split; [exact Hcalls | exact Hcancel].
Defined.

Lemma addDirective_inserts_at_witness :
  calls (addDirective ["a"; "b"] "x" (Some 1)) mounted
  = [JsArray.of_list ["a"; "x"; "b"]].
Proof.
  destruct (addDirective_inserts_at ["a"; "b"] mounted "x") as (_ & _ & Hat).
  destruct (Hat 1) as (updated & Hcalls & -> & _); [simpl; lia|].
  exact Hcalls.
Defined.

Lemma handleDirectiveChange_replaces_one_witness :
  calls (handleDirectiveChange ["a"; "b"; "c"] 1 "x") mounted
  = [JsArray.of_list ["a"; "x"; "c"]].
Proof.
  destruct (handleDirectiveChange_replaces_one ["a"; "b"; "c"] mounted 1 "x")
    as (updated & Hcalls & _ & -> & _); [simpl; lia|].
  exact Hcalls.
Defined.

Lemma removeDirective_out_of_range_witness :
  calls (removeDirective ["a"; "b"] 5) (setDeleteConfirmIndex (Some 5) mounted)
    = [JsArray.of_list ["a"; "b"]] ∧
  deleteConfirmIndex
    (state_after (removeDirective ["a"; "b"] 5)
                 (setDeleteConfirmIndex (Some 5) mounted)) = None.
Proof.
  destruct (removeDirective_out_of_range ["a"; "b"]
              (setDeleteConfirmIndex (Some 5) mounted) 5)
    as (Hcalls & _ & Hcleared); [right; simpl; lia|].
  split; [exact Hcalls | exact Hcleared].
Defined.

Lemma getGroupEditor_last_registration_wins_witness :
  Registry.getGroupEditor "apt"
    (Registry.registerAll [("pip", Sample.editor)] Registry.loaded) = None ∧
  Registry.getGroupEditor "pip"
    (Registry.registerAll
       [("pip", Sample.schema []); ("pip", Sample.editor);
        ("apt", Sample.schema [])]
       Registry.loaded) = Some Sample.editor.
Proof.
  destruct (@getGroupEditor_last_registration_wins string unit)
    as (Hfresh & _ & _ & Hlast).
  split.
  - apply Hfresh. by_decide.
  - apply (Hlast [("pip", Sample.schema [])] [("apt", Sample.schema [])]).
    by_decide.
Defined.

Lemma autoInitialize_reports_defaults_witness :
  ParamEditor.getDefaultParams Sample.editor !! "verbose"
  = Some (VBoolean false).
Proof.
  destruct (autoInitialize_reports_defaults Sample.editor)
    as (_ & _ & _ & Hfields & _).
  apply (Hfields ltac:(by_decide) Sample.verbose).
  unfold Sample.editor, Sample.schema. simpl.
  do 2 apply list_elem_of_further. apply list_elem_of_here.
Defined.

Lemma updateParameter_rebinds_one_key_witness :
  ∃ updatedParams,
    calls (ParamEditor.updateParameter Sample.editor ∅ "verbose"
             (VBoolean true)) ParamEditor.mounted
      = [ParamEditor.UpdateDirective updatedParams;
         ParamEditor.OnGroupChange
           (ParamEditor.group
              (ParamEditor.updateDirective Sample.editor updatedParams))
           updatedParams] ∧
    updatedParams !! "verbose" = Some (VBoolean true) ∧
    updatedParams !! "mode" = Some (VString "fast") ∧
    updatedParams !! "tags" = Some (VArray []).
Proof.
  destruct (updateParameter_rebinds_one_key Sample.editor ∅
              ParamEditor.mounted "verbose" (VBoolean true))
    as (updatedParams & Hcalls & _ & _ & Hkey & Hothers).
  exists updatedParams.
  split; [exact Hcalls|]. split; [exact Hkey|].
  split; (rewrite Hothers; [reflexivity | discriminate]).
Defined.
End Instances.

(** * Further properties of the group list editor *)
Section GroupListMore.
Context {Directive : Type}.
Implicit Types (group : list Directive) (st : GroupList.State).
Implicit Types (index dropIndex k : Z) (d : Directive).

Import GroupList.

Ltac run_list :=
  unfold calls, state_after, handleDirectiveChange, addDirective,
    removeDirective, confirmDelete, cancelDelete, handleDeleteClick,
    moveDirective, handleDrop, handleDragStart, handleDragOver,
    handleDragLeave, handleDragEnd, clearDrag, onChange,
    GroupView.scrollEffect, bind, ret, emit, modify, read;
  simpl.

(** *** Lists *)

Lemma lookup_swap_at {A} (l : list A) (i j n : nat) :
  (i < length l)%nat → (j < length l)%nat → i ≠ j →
  swap_at i j l !! n
  = if decide (n = i) then l !! j
    else if decide (n = j) then l !! i else l !! n.
Proof.
  intros Hi Hj Hne.
  destruct (lookup_lt_is_Some_2 l i Hi) as [x Hx].
  destruct (lookup_lt_is_Some_2 l j Hj) as [y Hy].
  unfold swap_at. rewrite Hx, Hy.
  destruct (decide (n = i)) as [->|Hni].
  - rewrite list_lookup_insert_ne by done.
    by rewrite list_lookup_insert_eq.
  - destruct (decide (n = j)) as [->|Hnj].
    + by rewrite list_lookup_insert_eq by (by rewrite length_insert).
    + by rewrite !list_lookup_insert_ne.
Qed.

Lemma length_swap_at {A} (l : list A) (i j : nat) :
  length (swap_at i j l) = length l.
Proof.
  unfold swap_at. destruct (l !! i), (l !! j); try done.
  by rewrite !length_insert.
Qed.

Lemma swap_at_back {A} (l : list A) (i j : nat) :
  (i < length l)%nat → (j < length l)%nat → i ≠ j →
  swap_at j i (swap_at i j l) = l.
Proof.
  intros Hi Hj Hne. apply list_eq. intros n.
  rewrite lookup_swap_at by (rewrite ?length_swap_at; done).
  rewrite !lookup_swap_at by done.
  repeat case_decide; by subst.
Qed.

Lemma swap_at_sym {A} (l : list A) (i j : nat) :
  (i < length l)%nat → (j < length l)%nat → i ≠ j →
  swap_at j i l = swap_at i j l.
Proof.
  intros Hi Hj Hne. apply list_eq. intros n.
  rewrite !lookup_swap_at by done.
  repeat case_decide; by subst.
Qed.

Lemma swap_at_next_cons {A} (z : A) (l : list A) (i : nat) :
  swap_at (S i) (S (S i)) (z :: l) = z :: swap_at i (S i) l.
Proof.
  unfold swap_at. simpl.
  by destruct (l !! i), (l !! S i).
Qed.

Lemma swap_at_next_Permutation {A} (l : list A) (i : nat) :
  swap_at i (S i) l ≡ₚ l.
Proof.
  revert l. induction i as [|i IH]; intros l.
  - destruct l as [|x [|y l]]; try done. apply perm_swap.
  - destruct l as [|z l]; [done|].
    rewrite swap_at_next_cons. by rewrite IH.
Qed.

Lemma insert_at_Permutation {A} (n : nat) (x : A) (l : list A) :
  insert_at n x l ≡ₚ x :: l.
Proof.
  revert l. induction n as [|n IH]; intros [|y l]; simpl; try done.
  rewrite IH. apply perm_swap.
Qed.

Lemma insert_remove_at {A} (n : nat) (x : A) (l : list A) :
  l !! n = Some x → insert_at n x (remove_at n l) = l.
Proof.
  unfold remove_at.
  revert l. induction n as [|n IH]; intros [|y l] Hx; simpl in *; try done.
  - by injection Hx as ->.
  - destruct l as [|z l]; [done|]. f_equal. by apply IH.
Qed.

Lemma insert_before_is_swap {A} (n : nat) (x : A) (l : list A) :
  l !! S n = Some x →
  insert_at n x (remove_at (S n) l) = swap_at n (S n) l.
Proof.
  unfold remove_at.
  revert l. induction n as [|n IH]; intros l Hx.
  - destruct l as [|y [|z l]]; simpl in *; try done.
    by injection Hx as ->.
  - destruct l as [|y l]; [done|].
    rewrite swap_at_next_cons. simpl in *.
    destruct l as [|z l]; [done|]. f_equal. by apply IH.
Qed.

(** *** Handlers on indices inside the group *)

Lemma moveDirective_inside group st index direction :
  0 ≤ index < Z.of_nat (length group) →
  0 ≤ newIndex index direction < Z.of_nat (length group) →
  calls (moveDirective group index direction) st
  = [JsArray.of_list
       (swap_at (Z.to_nat index) (Z.to_nat (newIndex index direction)) group)].
Proof.
  intros Hidx Htarget. run_list.
  set (target := newIndex index direction) in *.
  assert (Hne : target ≠ index)
    by (subst target; destruct direction; simpl; lia).
  destruct (Z.ltb_spec target 0); simpl; [lia|].
  destruct (Z.leb_spec (Z.of_nat (length group)) target); simpl; [lia|].
  destruct (lookup_lt_is_Some_2 group (Z.to_nat index)) as [x Hx]; [lia|].
  destruct (lookup_lt_is_Some_2 group (Z.to_nat target)) as [y Hy]; [lia|].
  rewrite !get_of_list by lia. rewrite Hx, Hy.
  rewrite set_of_list by lia.
  rewrite set_of_list by (rewrite length_insert; lia).
  unfold swap_at. by rewrite Hx, Hy.
Qed.

Lemma moveDirective_outside group st index direction :
  newIndex index direction < 0
  ∨ Z.of_nat (length group) ≤ newIndex index direction →
  calls (moveDirective group index direction) st = [].
Proof.
  intros Hout. run_list.
  destruct (Z.ltb_spec (newIndex index direction) 0); simpl; [done|].
  destruct (Z.leb_spec (Z.of_nat (length group)) (newIndex index direction));
    simpl; [done|lia].
Qed.

Lemma handleDrop_inside group st a dropIndex x :
  draggedIndex st = Some a → a ≠ dropIndex →
  0 ≤ a < Z.of_nat (length group) →
  0 ≤ dropIndex < Z.of_nat (length group) →
  group !! Z.to_nat a = Some x →
  calls (handleDrop group dropIndex) st
  = [JsArray.of_list
       (insert_at
          (Z.to_nat (if a <? dropIndex then dropIndex - 1 else dropIndex)) x
          (remove_at (Z.to_nat a) group))].
Proof.
  intros Hdrag Hne Ha Hb Hx. run_list. rewrite Hdrag. simpl.
  destruct (Z.eqb_spec a dropIndex); [done|]. simpl.
  pose proof (length_remove_at (Z.to_nat a) group ltac:(lia)) as Hlen.
  rewrite get_of_list by lia. rewrite Hx.
  rewrite splice_remove by lia.
  rewrite splice_insert; [done|].
  destruct (Z.ltb_spec a dropIndex); lia.
Qed.

Lemma removeDirective_inside group st index :
  0 ≤ index < Z.of_nat (length group) →
  calls (removeDirective group index) st
  = [JsArray.of_list (remove_at (Z.to_nat index) group)].
Proof.
  intros Hidx. run_list. unfold JsArray.filter.
  rewrite filter_from_remove by lia. by rewrite Z.sub_0_r.
Qed.

Lemma insert_after_is_swap {A} (n : nat) (x : A) (l : list A) :
  l !! n = Some x → (S n < length l)%nat →
  insert_at (S n) x (remove_at n l) = swap_at n (S n) l.
Proof.
  unfold remove_at.
  revert l. induction n as [|n IH]; intros l Hx Hlen.
  - destruct l as [|y [|z l]]; simpl in *; try done; try lia.
    by injection Hx as ->.
  - destruct l as [|y l]; [done|].
    rewrite swap_at_next_cons. simpl in *.
    f_equal. apply IH; [done | lia].
Qed.

Lemma splice_past_end {A} (a items : list (option A)) start :
  Z.of_nat (length a) ≤ start →
  JsArray.splice a start 0 items = a ++ items.
Proof.
  intros Hstart. unfold JsArray.splice.
  destruct (Z.ltb_spec start 0); [lia|].
  rewrite Z.min_r by lia.
  rewrite (Z.max_l 0 0) by lia. rewrite Z.min_l by lia.
  rewrite Z.add_0_r, Nat2Z.id.
  by rewrite take_ge, drop_ge, app_nil_r by lia.
Qed.

Lemma addDirective_inside group st d k :
  0 ≤ k ≤ Z.of_nat (length group) →
  calls (addDirective group d (Some k)) st
  = [JsArray.of_list (insert_at (Z.to_nat k) d group)].
Proof. intros Hk. run_list. by rewrite splice_insert. Qed.

(** *** Reordering *)

(** X1.  A move and the opposite move of the same element cancel: after
    moving the element at [index] down, moving the element at
    [index + 1] up reports the original group, and likewise up then
    down. *)
Theorem moveDirective_opposite_restores group st st' index :
  (0 ≤ index → index + 1 < Z.of_nat (length group) →
     ∃ moved,
       calls (moveDirective group index Down) st = [JsArray.of_list moved] ∧
       calls (moveDirective moved (index + 1) Up) st'
         = [JsArray.of_list group]) ∧
  (0 < index < Z.of_nat (length group) →
     ∃ moved,
       calls (moveDirective group index Up) st = [JsArray.of_list moved] ∧
       calls (moveDirective moved (index - 1) Down) st'
         = [JsArray.of_list group]).
Proof.
  split.
  - intros Hlo Hhi. eexists. split.
    + apply moveDirective_inside; simpl; lia.
    + rewrite moveDirective_inside
        by (rewrite length_swap_at; simpl; lia).
      simpl. replace (index + 1 - 1) with index by lia.
      rewrite swap_at_back by lia. done.
  - intros Hidx. eexists. split.
    + apply moveDirective_inside; simpl; lia.
    + rewrite moveDirective_inside
        by (rewrite length_swap_at; simpl; lia).
      simpl. replace (index - 1 + 1) with index by lia.
      rewrite swap_at_back by lia. done.
Qed.

(** X2.  Moving the element at an index inside the group never loses,
    duplicates or adds an element: either nothing is reported, or the
    reported array is dense and a permutation of the group. *)
Theorem moveDirective_permutes group st index direction :
  0 ≤ index < Z.of_nat (length group) →
  calls (moveDirective group index direction) st = [] ∨
  ∃ moved,
    calls (moveDirective group index direction) st = [JsArray.of_list moved] ∧
    moved ≡ₚ group.
Proof.
  intros Hidx.
  destruct (decide (0 ≤ newIndex index direction < Z.of_nat (length group)))
    as [Hin|Hout].
  - right. eexists. split; [by apply moveDirective_inside|].
    destruct direction; simpl in *.
    + rewrite swap_at_sym by lia.
      replace (Z.to_nat index) with (S (Z.to_nat (index - 1))) by lia.
      apply swap_at_next_Permutation.
    + replace (Z.to_nat (index + 1)) with (S (Z.to_nat index)) by lia.
      apply swap_at_next_Permutation.
  - left. apply moveDirective_outside. lia.
Qed.

(** X3.  A drop with source and target inside the group never loses,
    duplicates or adds an element: either nothing is reported, or the
    reported array is dense and a permutation of the group. *)
Theorem handleDrop_permutes group st a dropIndex :
  draggedIndex st = Some a →
  0 ≤ a < Z.of_nat (length group) →
  0 ≤ dropIndex < Z.of_nat (length group) →
  calls (handleDrop group dropIndex) st = [] ∨
  ∃ moved,
    calls (handleDrop group dropIndex) st = [JsArray.of_list moved] ∧
    moved ≡ₚ group.
Proof.
  intros Hdrag Ha Hb.
  destruct (decide (a = dropIndex)) as [->|Hne].
  - left. run_list. rewrite Hdrag. simpl. by rewrite Z.eqb_refl.
  - right.
    destruct (lookup_lt_is_Some_2 group (Z.to_nat a)) as [x Hx]; [lia|].
    eexists. split; [by eapply handleDrop_inside|].
    rewrite insert_at_Permutation. unfold remove_at.
    symmetry. by apply delete_Permutation.
Qed.

(** X4.  Dropping an element on its immediate successor reports the
    group in its old order; dropping it on its immediate predecessor is
    the "up" move; the "down" move is a drop on the row two below. *)
Theorem handleDrop_onto_neighbours group st a :
  draggedIndex st = Some a →
  (0 ≤ a → a + 1 < Z.of_nat (length group) →
     calls (handleDrop group (a + 1)) st = [JsArray.of_list group]) ∧
  (0 < a < Z.of_nat (length group) →
     calls (handleDrop group (a - 1)) st
     = calls (moveDirective group a Up) st) ∧
  (0 ≤ a → a + 2 < Z.of_nat (length group) →
     calls (handleDrop group (a + 2)) st
     = calls (moveDirective group a Down) st).
Proof.
  intros Hdrag. split; [|split].
  - intros Hlo Hhi.
    destruct (lookup_lt_is_Some_2 group (Z.to_nat a)) as [x Hx]; [lia|].
    rewrite (handleDrop_inside _ _ _ _ x Hdrag) by (done || lia).
    destruct (Z.ltb_spec a (a + 1)); [|lia].
    replace (a + 1 - 1) with a by lia.
    by rewrite insert_remove_at.
  - intros Ha.
    destruct (lookup_lt_is_Some_2 group (Z.to_nat a)) as [x Hx]; [lia|].
    rewrite (handleDrop_inside _ _ _ _ x Hdrag) by (done || lia).
    rewrite moveDirective_inside by (simpl; lia). simpl.
    destruct (Z.ltb_spec a (a - 1)); [lia|].
    rewrite swap_at_sym by lia.
    replace (Z.to_nat a) with (S (Z.to_nat (a - 1))) in * by lia.
    by rewrite insert_before_is_swap.
  - intros Hlo Hhi.
    destruct (lookup_lt_is_Some_2 group (Z.to_nat a)) as [x Hx]; [lia|].
    rewrite (handleDrop_inside _ _ _ _ x Hdrag) by (done || lia).
    rewrite moveDirective_inside by (simpl; lia). simpl.
    destruct (Z.ltb_spec a (a + 2)); [|lia].
    replace (Z.to_nat (a + 2 - 1)) with (S (Z.to_nat a)) by lia.
    replace (Z.to_nat (a + 1)) with (S (Z.to_nat a)) by lia.
    rewrite insert_after_is_swap by (done || lia). done.
Qed.

(** X5.  For a row of the group, the "move up" and "move down" buttons
    are disabled exactly when [moveDirective] would return without
    calling [onChange]. *)
Theorem move_buttons_disabled_iff_noop group st index :
  0 ≤ index < Z.of_nat (length group) →
  (GroupView.moveUpDisabled index = true
   ↔ calls (moveDirective group index Up) st = []) ∧
  (GroupView.moveDownDisabled group index = true
   ↔ calls (moveDirective group index Down) st = []).
Proof.
  intros Hidx.
  unfold GroupView.moveUpDisabled, GroupView.moveDownDisabled.
  split; split.
  - intros Heq%Z.eqb_eq. apply moveDirective_outside. simpl. lia.
  - intros Hnone. apply Z.eqb_eq.
    destruct (decide (index = 0)) as [|Hne]; [done|].
    rewrite moveDirective_inside in Hnone by (simpl; lia). done.
  - intros Heq%Z.eqb_eq. apply moveDirective_outside. simpl. lia.
  - intros Hnone. apply Z.eqb_eq.
    destruct (decide (index = Z.of_nat (length group) - 1)) as [|Hne];
      [done|].
    rewrite moveDirective_inside in Hnone by (simpl; lia). done.
Qed.

(** *** Adding and removing *)

(** X6.  An index at or past the end is clamped: the handler does
    exactly what it does without an index, appending the directive and
    arming the scroll flag. *)
Theorem addDirective_past_end_appends group st d index :
  Z.of_nat (length group) ≤ index →
  addDirective group d (Some index) st = addDirective group d None st ∧
  calls (addDirective group d (Some index)) st
    = [JsArray.of_list (group ++ [d])] ∧
  shouldScrollToNew (state_after (addDirective group d (Some index)) st)
    = true.
Proof.
  intros Hidx.
  assert (Hsplice :
    JsArray.splice (JsArray.of_list group) index 0 [Some d]
    = JsArray.push (JsArray.of_list group) (Some d)).
  { apply splice_past_end. by rewrite length_of_list. }
  unfold addDirective, onChange, bind, ret, emit, modify, calls, state_after.
  simpl. rewrite Hsplice.
  destruct (Z.leb_spec (Z.of_nat (length group)) index); [|lia].
  unfold JsArray.push, JsArray.of_list. by rewrite fmap_app.
Qed.

(** X7.  Deleting the position a directive was just added at gives the
    group back. *)
Theorem addDirective_then_removeDirective group st st' d k :
  0 ≤ k ≤ Z.of_nat (length group) →
  ∃ updated,
    calls (addDirective group d (Some k)) st = [JsArray.of_list updated] ∧
    calls (removeDirective updated k) st' = [JsArray.of_list group].
Proof.
  intros Hk. eexists. split; [by apply addDirective_inside|].
  rewrite removeDirective_inside by (rewrite length_insert_at; lia).
  by rewrite remove_insert_at by lia.
Qed.

(** X8.  Whatever the index, a deletion reports a dense array that is
    the group with at most one element left out, the others in their
    order. *)
Theorem removeDirective_drops_at_most_one group st index :
  ∃ remaining,
    calls (removeDirective group index) st = [JsArray.of_list remaining] ∧
    remaining `sublist_of` group ∧
    (length group ≤ S (length remaining))%nat.
Proof.
  destruct (decide (0 ≤ index < Z.of_nat (length group))) as [Hin|Hout].
  - eexists. split; [by apply removeDirective_inside|].
    split; [apply sublist_delete|].
    rewrite length_remove_at by lia. done.
  - exists group. split.
    + run_list. unfold JsArray.filter.
      rewrite filter_from_other by lia. done.
    + split; [done | lia].
Qed.

(** X9.  A change addressed outside the group does not fail.  With a
    negative index the reported array is the group as it was, the new
    directive nowhere in it; with an index at or past the end that is
    still an array index (below 2^32 - 1) the array grows to
    [index + 1] slots, the group in front, the new directive last, and
    holes in between. *)
Theorem handleDirectiveChange_outside group st index d :
  (index < 0 →
     calls (handleDirectiveChange group index d) st
     = [JsArray.of_list group]) ∧
  (Z.of_nat (length group) ≤ index → index < max_array_index →
     ∃ updated,
       calls (handleDirectiveChange group index d) st = [updated] ∧
       Z.of_nat (length updated) = index + 1 ∧
       JsArray.get updated index = Some d ∧
       (∀ k, 0 ≤ k < Z.of_nat (length group) →
          JsArray.get updated k = group !! Z.to_nat k) ∧
       (∀ k, Z.of_nat (length group) ≤ k < index →
          JsArray.get updated k = None)).
Proof.
  split.
  - intros Hneg. run_list. unfold JsArray.set.
    by destruct (Z.ltb_spec index 0); [|lia].
  - intros Hpast _. eexists. split; [by run_list|].
    split.
    { unfold JsArray.set.
      destruct (Z.ltb_spec index 0); [lia|].
      rewrite length_of_list.
      destruct (Nat.ltb_spec (Z.to_nat index) (length group)); [lia|].
      rewrite !length_app, length_replicate, length_of_list. simpl. lia. }
    split; [rewrite get_set by lia; by rewrite Z.eqb_refl|].
    split.
    + intros k Hk. rewrite get_set by lia.
      destruct (Z.eqb_spec k index); [lia|].
      apply get_of_list. lia.
    + intros k Hk. rewrite get_set by lia.
      destruct (Z.eqb_spec k index); [lia|].
      apply get_beyond. rewrite length_of_list. lia.
Qed.

(** *** Gestures *)

(** X10.  From a state with no drag in progress, a whole drag gesture
    ends in that same state, whether it is dropped or abandoned; an
    abandoned gesture and a drop on the source row call nothing; a drop
    on another row of the group reports a permutation of the group. *)
Theorem drag_gesture_restores_state group st a b :
  draggedIndex st = None → dragOverIndex st = None →
  let dropped :=
    (handleDragStart a ;;; handleDragOver b ;;; handleDrop group b)%handler in
  let abandoned :=
    (handleDragStart a ;;; handleDragOver b ;;; handleDragLeave ;;;
     handleDragEnd (Directive := Directive))%handler in
  state_after dropped st = st ∧
  state_after abandoned st = st ∧
  calls abandoned st = [] ∧
  (a = b → calls dropped st = []) ∧
  (a ≠ b → 0 ≤ a < Z.of_nat (length group) →
   0 ≤ b < Z.of_nat (length group) →
     ∃ moved, calls dropped st = [JsArray.of_list moved] ∧ moved ≡ₚ group).
Proof.
  intros Hdrag Hover dropped abandoned. subst dropped abandoned.
  destruct st as [expanded dragged over pending scroll].
  simpl in Hdrag, Hover. subst dragged over.
  split; [|split; [|split; [|split]]].
  - run_list. by destruct (Z.eqb_spec a b).
  - by run_list.
  - by run_list.
  - intros ->. run_list. by rewrite Z.eqb_refl.
  - intros Hne Ha Hb.
    destruct (lookup_lt_is_Some_2 group (Z.to_nat a)) as [x Hx]; [lia|].
    exists (insert_at (Z.to_nat (if a <? b then b - 1 else b)) x
              (remove_at (Z.to_nat a) group)).
    split.
    + run_list. destruct (Z.eqb_spec a b); [done|]. simpl.
      pose proof (length_remove_at (Z.to_nat a) group ltac:(lia)) as Hlen.
      rewrite get_of_list by lia. rewrite Hx.
      rewrite splice_remove by lia.
      rewrite splice_insert; [done|].
      destruct (Z.ltb_spec a b); lia.
    + rewrite insert_at_Permutation. unfold remove_at.
      symmetry. by apply delete_Permutation.
Qed.

(** X11.  From a state with no deletion pending: asking for a deletion
    and cancelling it calls nothing and ends in the same state; asking
    and confirming ends in the same state and, for a row of the group,
    reports the group without that row; a second confirmation calls
    nothing more. *)
Theorem delete_request_flows group group' st index :
  deleteConfirmIndex st = None →
  let cancelled := (handleDeleteClick index ;;; cancelDelete)%handler in
  let confirmed :=
    (handleDeleteClick index ;;; confirmDelete group)%handler in
  let confirmed_twice :=
    (handleDeleteClick index ;;; confirmDelete group ;;;
     confirmDelete group')%handler in
  calls (Ev := list (option Directive)) cancelled st = [] ∧
  state_after (Ev := list (option Directive)) cancelled st = st ∧
  state_after confirmed st = st ∧
  (0 ≤ index < Z.of_nat (length group) →
     calls confirmed st
     = [JsArray.of_list (remove_at (Z.to_nat index) group)]) ∧
  calls confirmed_twice st = calls confirmed st ∧
  state_after confirmed_twice st = st.
Proof.
  intros Hpending cancelled confirmed confirmed_twice.
  subst cancelled confirmed confirmed_twice.
  destruct st as [expanded dragged over pending scroll].
  simpl in Hpending. subst pending.
  split; [by run_list|]. split; [by run_list|]. split; [by run_list|].
  split.
  - intros Hidx. run_list. unfold JsArray.filter.
    rewrite filter_from_remove by lia. by rewrite Z.sub_0_r.
  - split; by run_list.
Qed.

(** *** Add buttons and scrolling *)

Lemma addButtonIndices_positions group :
  GroupView.addButtonIndices group
  = Z.of_nat <$> seq 0 (S (length group)).
Proof.
  unfold GroupView.addButtonIndices, GroupView.rowIndices.
  destruct group as [|d group]; [done|].
  change ((length (d :: group) =? 0)%nat) with false. cbv iota.
  generalize (length (d :: group)). intros n.
  rewrite <- list_fmap_compose.
  change (seq 0 (S n)) with (0%nat :: seq 1 n).
  rewrite <- fmap_S_seq, fmap_cons, <- list_fmap_compose.
  f_equal. apply list_fmap_ext. intros _ i _. simpl. lia.
Qed.

(** X12.  The add buttons carry the positions 0 to [len], each once and
    in order.  An add through any of them inserts at exactly that
    position, and only the last button's add arms the scroll flag. *)
Theorem addButtonIndices_cover_positions group st d :
  GroupView.addButtonIndices group = Z.of_nat <$> seq 0 (S (length group)) ∧
  (∀ k, k ∈ GroupView.addButtonIndices group →
     0 ≤ k ≤ Z.of_nat (length group) ∧
     calls (addDirective group d (Some k)) st
       = [JsArray.of_list (insert_at (Z.to_nat k) d group)] ∧
     insert_at (Z.to_nat k) d group !! Z.to_nat k = Some d ∧
     (shouldScrollToNew (state_after (addDirective group d (Some k)) st)
        = true ↔ k = Z.of_nat (length group))).
Proof.
  split; [apply addButtonIndices_positions|].
  intros k Hk. rewrite addButtonIndices_positions in Hk.
  apply list_elem_of_fmap in Hk as (n & -> & Hn).
  apply elem_of_seq in Hn.
  split; [lia|]. split; [apply addDirective_inside; lia|].
  split; [apply lookup_insert_at; lia|].
  run_list. rewrite Z.leb_le. lia.
Qed.

(** X13.  After an add, the scroll effect asks for a scroll exactly when
    the directive was appended (no index, or an index at or past the
    end) and the last row is mounted; it then disarms the flag, so the
    next run asks for nothing.  While the last row is not mounted the
    flag stays armed. *)
Theorem scrollEffect_after_addDirective group st d (position : option Z) present :
  let appended :=
    match position with
    | None => true
    | Some i => Z.of_nat (length group) <=? i
    end in
  let added := state_after (addDirective group d position) st in
  calls (GroupView.scrollEffect present) added
    = (if appended && present then [GroupView.ScrollIntoView] else []) ∧
  shouldScrollToNew (state_after (GroupView.scrollEffect present) added)
    = appended && negb present ∧
  calls (GroupView.scrollEffect true)
        (state_after (GroupView.scrollEffect true) added) = [].
Proof.
  intros appended added. subst appended added. run_list.
  destruct position as [i|]; simpl;
    [destruct (Z.of_nat (length group) <=? i)|];
    destruct present; simpl; done.
Qed.

(** X14.  Only [addDirective] writes the scroll flag: a deletion, a
    move, a drop and a change leave it as it is, so with the flag
    disarmed the effect that follows any of them asks for no scroll. *)
Theorem scroll_flag_survives_other_handlers group st index dropIndex
    direction d present :
  let after_remove := state_after (removeDirective group index) st in
  let after_move := state_after (moveDirective group index direction) st in
  let after_drop := state_after (handleDrop group dropIndex) st in
  let after_change :=
    state_after (handleDirectiveChange group index d) st in
  (shouldScrollToNew after_remove = shouldScrollToNew st ∧
   shouldScrollToNew after_move = shouldScrollToNew st ∧
   shouldScrollToNew after_drop = shouldScrollToNew st ∧
   shouldScrollToNew after_change = shouldScrollToNew st) ∧
  (shouldScrollToNew st = false →
   calls (GroupView.scrollEffect present) after_remove = [] ∧
   calls (GroupView.scrollEffect present) after_move = [] ∧
   calls (GroupView.scrollEffect present) after_drop = [] ∧
   calls (GroupView.scrollEffect present) after_change = []).
Proof.
  intros after_remove after_move after_drop after_change.
  assert (Hkeeps :
    shouldScrollToNew after_remove = shouldScrollToNew st ∧
    shouldScrollToNew after_move = shouldScrollToNew st ∧
    shouldScrollToNew after_drop = shouldScrollToNew st ∧
    shouldScrollToNew after_change = shouldScrollToNew st).
  { subst after_remove after_move after_drop after_change.
    split; [by run_list|]. split.
    { run_list.
      by destruct (newIndex index direction <? 0),
        (Z.of_nat (length group) <=? newIndex index direction). }
    split; [|by run_list].
    run_list. destruct (draggedIndex st) as [a|]; simpl; [|done].
    by destruct (a =? dropIndex). }
  split; [done|]. intros Hoff.
  destruct Hkeeps as (Hremove & Hmove & Hdrop & Hchange).
  assert (Hquiet : ∀ s, shouldScrollToNew s = false →
            calls (GroupView.scrollEffect present) s = []).
  { intros s Hs. unfold calls, GroupView.scrollEffect, bind, read. simpl.
    by rewrite Hs. }
  repeat split; apply Hquiet; congruence.
Qed.
End GroupListMore.

(** * Further properties of the simplified editor *)
Section ParamEditorMore.
Context {Directive Metadata : Type}.
Implicit Types (editorInfo : @ParamEditor.GroupEditor Directive Metadata).
Implicit Types (arg : ParamEditor.GroupEditorArgument).
Implicit Types (params customParams : gmap string Value).
Implicit Types (st : ParamEditor.State).

Import ParamEditor.

Ltac run_param :=
  unfold calls, state_after, ParamView.renderedAfter, ParamView.selectChange,
    ParamView.toggleChange, ParamView.tagsChange, ParamView.textChange,
    autoInitialize, updateParameter, callUpdateDirective, onChangeWrapper,
    bind, ret, emit, modify, read;
  simpl.

Lemma nullish_keeps v d :
  is_nullish v = false → nullish v d = v.
Proof. by destruct v. Qed.

Lemma nullish_falls_back v d :
  is_nullish d = false → is_nullish (nullish v d) = false.
Proof. by destruct v. Qed.

Lemma getDefaultValue_not_nullish arg :
  is_nullish (getDefaultValue arg) = false.
Proof.
  unfold getDefaultValue.
  destruct (isBoolean arg && hasDefaultValue arg);
    [by apply nullish_falls_back|].
  destruct (isText arg && hasDefaultValue arg);
    [by apply nullish_falls_back|].
  destruct (isArray arg && hasDefaultValue arg);
    [by apply nullish_falls_back|].
  done.
Qed.

(** X15.  The value a field shows is never [undefined] or [null],
    whatever the schema and the custom params hold. *)
Theorem currentValue_never_nullish editorInfo customParams arg :
  is_nullish (currentValue editorInfo customParams arg) = false ∧
  currentValue editorInfo customParams arg ≠ VUndefined ∧
  currentValue editorInfo customParams arg ≠ VNull.
Proof.
  assert (H : is_nullish (currentValue editorInfo customParams arg) = false).
  { unfold currentValue. apply nullish_falls_back.
    apply getDefaultValue_not_nullish. }
  split; [done|].
  split; intros Heq; by rewrite Heq in H.
Qed.

Lemma currentParams_nonempty editorInfo customParams :
  customParams ≠ ∅ → currentParams editorInfo customParams = customParams.
Proof.
  intros Hne. unfold currentParams, keys_length.
  destruct (Nat.ltb_spec 0 (size customParams)) as [|Hzero]; [done|].
  exfalso. apply Hne. apply map_size_empty_iff. lia.
Qed.

Lemma currentParams_empty editorInfo :
  currentParams editorInfo ∅ = getDefaultParams editorInfo.
Proof. unfold currentParams, keys_length. by rewrite map_size_empty. Qed.

Lemma currentValue_bound editorInfo customParams arg v :
  customParams !! name arg = Some v → is_nullish v = false →
  currentValue editorInfo customParams arg = v.
Proof.
  intros Hv Hdef. unfold currentValue.
  rewrite currentParams_nonempty.
  - unfold prop. rewrite Hv. simpl. by apply nullish_keeps.
  - intros ->. by rewrite lookup_empty in Hv.
Qed.

(** X16.  Edits build on one another: the params an edit reports, handed
    back as [customParams], are the base of the next edit, without any
    recourse to the schema's defaults, so the second report still binds
    the first key to the first value. *)
Theorem updateParameter_edits_accumulate editorInfo customParams st st'
    key1 value1 key2 value2 :
  ∃ first,
    calls (updateParameter editorInfo customParams key1 value1) st
      = [UpdateDirective first;
         OnGroupChange (group (updateDirective editorInfo first)) first] ∧
    currentParams editorInfo first = first ∧
    calls (updateParameter editorInfo first key2 value2) st'
      = [UpdateDirective (<[key2 := value2]> first);
         OnGroupChange
           (group (updateDirective editorInfo (<[key2 := value2]> first)))
           (<[key2 := value2]> first)] ∧
    (key1 ≠ key2 → <[key2 := value2]> first !! key1 = Some value1).
Proof.
  eexists. split; [by run_param|].
  assert (Hbase :
    currentParams editorInfo
      (<[key1 := value1]> (currentParams editorInfo customParams))
    = <[key1 := value1]> (currentParams editorInfo customParams)).
  { apply currentParams_nonempty. apply insert_non_empty. }
  split; [done|]. split.
  - run_param. by rewrite Hbase.
  - intros Hne. rewrite lookup_insert_ne by done. apply lookup_insert_eq.
Qed.

(** X17.  What is entered is what is shown: after an edit through a
    field's control, the next render of that field (when it is not
    hidden) gives the control the value that was entered: the chosen
    option, the chosen one of "true" and "false", the tags, the text. *)
Theorem edit_then_render_shows_entry editorInfo customParams st
    showAdvanced arg :
  ParamView.truthy (advanced arg) && negb showAdvanced = false →
  match type arg with
  | Dropdown options _ =>
      ∀ chosen,
        ParamView.renderedAfter editorInfo
          (ParamView.selectChange editorInfo customParams arg chosen)
          st showAdvanced arg
        = Some (ParamView.Select options chosen)
  | Boolean _ =>
      ∀ b : bool,
        let chosen := if b then "true" else "false" in
        ParamView.renderedAfter editorInfo
          (ParamView.toggleChange editorInfo customParams arg chosen)
          st showAdvanced arg
        = Some (ParamView.ToggleButtonGroup chosen)
  | Array _ =>
      ∀ tags,
        ParamView.renderedAfter editorInfo
          (ParamView.tagsChange editorInfo customParams arg tags)
          st showAdvanced arg
        = Some (ParamView.TagEditor tags)
  | Text _ multiline =>
      ∀ typed,
        ParamView.renderedAfter editorInfo
          (ParamView.textChange editorInfo customParams arg typed)
          st showAdvanced arg
        = Some (if ParamView.truthy multiline then ParamView.Textarea typed
                else ParamView.Input typed)
  end.
Proof.
  intros Hshown.
  assert (Hvalue : ∀ v, is_nullish v = false →
    currentValue editorInfo
      (<[name arg := v]> (currentParams editorInfo customParams)) arg = v).
  { intros v Hv. apply currentValue_bound; [apply lookup_insert_eq | done]. }
  destruct (type arg) as [options dflt|dflt multiline|dflt|dflt] eqn:Htype.
  - intros chosen. run_param. unfold ParamView.renderArgument.
    rewrite Hshown, Htype. simpl. by rewrite Hvalue.
  - intros typed. run_param. unfold ParamView.renderArgument.
    rewrite Hshown, Htype. simpl. rewrite Hvalue by done. simpl.
    by destruct (ParamView.truthy multiline).
  - intros tags. run_param. unfold ParamView.renderArgument.
    rewrite Hshown, Htype. simpl. by rewrite Hvalue.
  - intros b. run_param. unfold ParamView.renderArgument.
    rewrite Hshown, Htype. simpl. rewrite Hvalue by done.
    by destruct b.
Qed.

(** X18.  Over any number of runs of the initialising effect the schema
    is applied to the defaults at most once: at the first run that sees
    an empty [customParams], if the editor was not initialised before;
    every other run calls nothing. *)
Theorem effectRuns_initialise_once editorInfo
    (history : list (gmap string Value)) st :
  let defaults := getDefaultParams editorInfo in
  let sees_empty :=
    existsb (λ customParams, (keys_length customParams =? 0)%nat) history in
  calls (ParamView.effectRuns editorInfo history) st
    = (if negb (initializedRef st) && sees_empty
       then [UpdateDirective defaults;
             OnGroupChange (group (updateDirective editorInfo defaults))
                           defaults]
       else []) ∧
  initializedRef (state_after (ParamView.effectRuns editorInfo history) st)
    = initializedRef st || sees_empty ∧
  showAdvanced (state_after (ParamView.effectRuns editorInfo history) st)
    = showAdvanced st.
Proof.
  intros defaults sees_empty. subst defaults sees_empty.
  revert st. induction history as [|customParams later IH]; intros st.
  { simpl. unfold calls, state_after, ret. simpl.
    by rewrite andb_false_r, orb_false_r. }
  simpl.
  set (h := autoInitialize editorInfo customParams).
  assert (Hsplit :
    calls (h ;;; ParamView.effectRuns editorInfo later)%handler st
      = calls h st
        ++ calls (ParamView.effectRuns editorInfo later) (state_after h st)
    ∧ state_after (h ;;; ParamView.effectRuns editorInfo later)%handler st
      = state_after (ParamView.effectRuns editorInfo later)
                    (state_after h st)).
  { unfold calls, state_after, bind.
    destruct (h st) as [[[] st1] evs1]. simpl.
    by destruct (ParamView.effectRuns editorInfo later st1) as [[[] st2] evs2]. }
  destruct Hsplit as [-> ->].
  destruct (IH (state_after h st)) as (-> & -> & ->).
  subst h. destruct st as [adv init]. run_param.
  destruct init; simpl.
  { by destruct (existsb _ later). }
  destruct (keys_length customParams =? 0)%nat; simpl; [done|].
  by destruct (existsb _ later).
Qed.

Lemma filter_partition_Permutation {A} (f : A → bool) (l : list A) :
  List.filter (λ x, negb (f x)) l ++ List.filter f l ≡ₚ l.
Proof.
  induction l as [|x l IH]; [done|]. simpl.
  destruct (f x); simpl.
  - rewrite <- Permutation_middle. by rewrite IH.
  - by rewrite IH.
Qed.

Lemma renderArgument_label editorInfo customParams showAdvanced arg :
  ParamView.truthy (advanced arg) && negb showAdvanced = false →
  ParamView.label <$>
    ParamView.renderArgument editorInfo customParams showAdvanced arg
  = Some (name arg).
Proof. intros Hshown. unfold ParamView.renderArgument. by rewrite Hshown. Qed.

Lemma rendered_labels editorInfo customParams showAdvanced
    (args : list GroupEditorArgument) :
  (∀ arg, arg ∈ args →
     ParamView.truthy (advanced arg) && negb showAdvanced = false) →
  (λ field, ParamView.label <$> field) <$>
    (ParamView.renderArgument editorInfo customParams showAdvanced <$> args)
  = (Some ∘ name) <$> args.
Proof.
  intros Hshown. rewrite <- list_fmap_compose.
  apply list_fmap_ext. intros i arg Hi. simpl.
  apply renderArgument_label. apply Hshown.
  by eapply list_elem_of_lookup_2.
Qed.

(** X19.  The form never renders [null]: every child of the two field
    blocks is a field.  The fields are those not flagged advanced, in
    schema order, followed, when the advanced section is open, by the
    advanced ones; with the section open every field of the schema is
    rendered exactly once. *)
Theorem renderedFields_visibility editorInfo customParams showAdvanced :
  let rendered :=
    ParamView.renderedFields editorInfo customParams showAdvanced in
  let labels := (λ field, ParamView.label <$> field) <$> rendered in
  labels
    = (Some ∘ name) <$>
        (ParamView.basicArgs editorInfo ++
         if showAdvanced then ParamView.advancedArgs editorInfo else []) ∧
  (∀ field, field ∈ rendered → is_Some field) ∧
  (showAdvanced = true →
   labels ≡ₚ (Some ∘ name) <$> arguments editorInfo).
Proof.
  intros rendered labels.
  assert (Hlabels : labels
    = (Some ∘ name) <$>
        (ParamView.basicArgs editorInfo ++
         if showAdvanced then ParamView.advancedArgs editorInfo else [])).
  { subst labels rendered. unfold ParamView.renderedFields.
    rewrite !fmap_app. f_equal.
    - apply rendered_labels. intros arg Hin.
      unfold ParamView.basicArgs in Hin.
      apply list_elem_of_In, filter_In in Hin as [_ Hflag].
      apply negb_true_iff in Hflag. by rewrite Hflag.
    - destruct showAdvanced; [|by rewrite andb_false_r].
      rewrite andb_true_r.
      destruct (Nat.ltb_spec 0 (length (ParamView.advancedArgs editorInfo)))
        as [|Hnone].
      + apply rendered_labels. intros arg _. by rewrite andb_false_r.
      + destruct (ParamView.advancedArgs editorInfo);
          [done | simpl in *; lia]. }
  split; [done|]. split.
  - intros field Hfield.
    assert (Hin : (ParamView.label <$> field) ∈ labels).
    { subst labels.
      by apply (list_elem_of_fmap_2 (λ field, ParamView.label <$> field)). }
    rewrite Hlabels in Hin.
    apply list_elem_of_fmap in Hin as (arg & Heq & _).
    destruct field; [by eexists | done].
  - intros ->. rewrite Hlabels.
    unfold ParamView.basicArgs, ParamView.advancedArgs.
    by rewrite filter_partition_Permutation.
Qed.

(** X20.  With custom params present the schema's defaults are not
    merged in: a field that declares a default but has no entry in the
    custom params, and whose name is not one a plain object inherits,
    shows that default if it is a text, array or boolean field, and
    the empty string if it is a dropdown. *)
Theorem currentValue_of_missing_key editorInfo customParams arg v :
  name arg ∉ inherited_names →
  customParams ≠ ∅ → customParams !! name arg = None →
  declaredDefault arg = Some v →
  currentValue editorInfo customParams arg
  = match type arg with
    | Dropdown _ _ => VString ""
    | _ => v
    end.
Proof.
  intros _ Hne Hmissing Hdeclared. unfold currentValue.
  rewrite currentParams_nonempty by done.
  unfold prop. rewrite Hmissing. simpl.
  unfold declaredDefault in Hdeclared.
  unfold getDefaultValue, isBoolean, isText, isArray, hasDefaultValue,
    defaultValue.
  destruct (type arg) as [? [| |?]|[| |?] ?|[| |?]|[| |?]];
    simpl in *; congruence.
Qed.

Lemma foldl_addDefault_undeclared params (args : list GroupEditorArgument)
    key :
  (∀ later, later ∈ args → name later = key → declaredDefault later = None) →
  foldl addDefault params args !! key = params !! key.
Proof.
  revert params. induction args as [|arg args IH]; intros params Hnone;
    [done|].
  simpl. rewrite IH.
  - rewrite addDefault_declared.
    destruct (declaredDefault arg) as [v|] eqn:Hdecl; [|done].
    apply lookup_insert_ne. intros Heq.
    specialize (Hnone arg ltac:(apply list_elem_of_here) Heq). congruence.
  - intros later Hin. apply Hnone. by apply list_elem_of_further.
Qed.

(** X21.  When several fields of a schema share a name, the default
    params bind the name to the default of the last of them that
    declares one. *)
Theorem getDefaultParams_last_declared_wins editorInfo
    (before after : list GroupEditorArgument) arg v :
  arguments editorInfo = before ++ arg :: after →
  declaredDefault arg = Some v →
  (∀ later, later ∈ after → name later = name arg →
     declaredDefault later = None) →
  getDefaultParams editorInfo !! name arg = Some v.
Proof.
  intros Hargs Hdeclared Hlater. unfold getDefaultParams.
  rewrite Hargs, foldl_app. simpl.
  rewrite foldl_addDefault_undeclared by done.
  rewrite addDefault_declared, Hdeclared. apply lookup_insert_eq.
Qed.
End ParamEditorMore.

(** * Further properties of the registry *)
Section RegistryMore.
Context {Directive Metadata : Type}.
Implicit Types (reg : @Registry.Registry Directive Metadata).
Implicit Types (editor : @ParamEditor.GroupEditor Directive Metadata).
Implicit Types (name : string).

Import Registry.

Lemma registerAll_snoc
    (regs : list (string * @ParamEditor.GroupEditor Directive Metadata))
    name editor reg :
  registerAll (regs ++ [(name, editor)]) reg
  = registerGroupEditor name editor (registerAll regs reg).
Proof. unfold registerAll. by rewrite foldl_app. Qed.

(** X22.  Nothing is ever unregistered: a name that has an editor keeps
    having one through any further registrations. *)
Theorem registry_never_forgets
    (regs : list (string * @ParamEditor.GroupEditor Directive Metadata))
    reg name :
  is_Some (getGroupEditor name reg) →
  is_Some (getGroupEditor name (registerAll regs reg)).
Proof.
  revert reg. induction regs as [|[other editor] regs IH]; intros reg Hsome;
    [done|].
  change (registerAll ((other, editor) :: regs) reg)
    with (registerAll regs (registerGroupEditor other editor reg)).
  apply IH. unfold getGroupEditor, registerGroupEditor in *. simpl.
  destruct (decide (other = name)) as [->|Hne].
  - rewrite lookup_insert_eq. by eexists.
  - by rewrite lookup_insert_ne.
Qed.

(** X23.  The two registries stay in step: after any run of
    registrations since module load, [registerDirective] was called once
    per registration, in order, and every editor [getGroupEditor]
    returns was registered under that name and has its metadata among
    the registered directives. *)
Theorem registries_in_step
    (regs : list (string * @ParamEditor.GroupEditor Directive Metadata)) :
  let reg := registerAll regs loaded in
  registeredDirectives reg
    = (λ call, (ParamEditor.metadata call.2, call.2)) <$> regs ∧
  (∀ name editor,
     getGroupEditor name reg = Some editor →
     (name, editor) ∈ regs ∧
     (ParamEditor.metadata editor, editor) ∈ registeredDirectives reg) ∧
  (size (groupEditors reg) ≤ length regs)%nat.
Proof.
  intros reg. subst reg.
  assert (Hlog : registeredDirectives (registerAll regs loaded)
                 = (λ call, (ParamEditor.metadata call.2, call.2)) <$> regs).
  { induction regs as [|[name editor] regs IH] using rev_ind; [done|].
    rewrite registerAll_snoc. simpl. rewrite IH. by rewrite fmap_app. }
  assert (Hfound : ∀ name editor,
    getGroupEditor name (registerAll regs loaded) = Some editor →
    (name, editor) ∈ regs).
  { induction regs as [|[other last] regs IH] using rev_ind;
      intros name editor Hget.
    - unfold getGroupEditor in Hget. simpl in Hget.
      by rewrite lookup_empty in Hget.
    - rewrite registerAll_snoc in Hget.
      unfold getGroupEditor, registerGroupEditor in Hget. simpl in Hget.
      apply elem_of_app.
      destruct (decide (other = name)) as [->|Hne].
      + rewrite lookup_insert_eq in Hget. injection Hget as ->.
        right. apply list_elem_of_here.
      + rewrite lookup_insert_ne in Hget by done.
        left. apply IH; [|done].
        clear -regs. induction regs as [|[n e] regs IH] using rev_ind;
          [done|].
        rewrite registerAll_snoc. simpl. rewrite IH. by rewrite fmap_app. }
  split; [done|]. split.
  - intros name editor Hget. pose proof (Hfound _ _ Hget) as Hin.
    split; [done|]. rewrite Hlog.
    by apply (list_elem_of_fmap_2
                (λ call, (ParamEditor.metadata call.2, call.2))) in Hin.
  - clear Hlog Hfound.
    induction regs as [|[name editor] regs IH] using rev_ind.
    + simpl. by rewrite map_size_empty.
    + rewrite registerAll_snoc, length_app. simpl.
      rewrite map_size_insert.
      destruct (groupEditors (registerAll regs loaded) !! name);
        simpl; lia.
Qed.
End RegistryMore.

(** * The further properties at concrete inputs *)
Section MoreInstances.
Import GroupList.

Ltac by_decide := apply (bool_decide_unpack _); vm_compute; exact I.

Lemma moveDirective_opposite_restores_witness :
  ∃ moved,
    calls (moveDirective ["a"; "b"; "c"] 0 Down) mounted
      = [JsArray.of_list moved] ∧
    calls (moveDirective moved (0 + 1) Up) mounted
      = [JsArray.of_list ["a"; "b"; "c"]].
Proof.
  apply (moveDirective_opposite_restores ["a"; "b"; "c"] mounted mounted 0);
    simpl; lia.
Defined.

Lemma moveDirective_permutes_witness :
  calls (moveDirective ["a"; "b"; "c"] 1 Down) mounted = [] ∨
  ∃ moved,
    calls (moveDirective ["a"; "b"; "c"] 1 Down) mounted
      = [JsArray.of_list moved] ∧
    moved ≡ₚ ["a"; "b"; "c"].
Proof.
  apply (moveDirective_permutes ["a"; "b"; "c"] mounted 1 Down). simpl. lia.
Defined.

Lemma handleDrop_permutes_witness :
  calls (handleDrop ["a"; "b"; "c"] 2) (setDraggedIndex (Some 0) mounted) = []
  ∨ ∃ moved,
      calls (handleDrop ["a"; "b"; "c"] 2) (setDraggedIndex (Some 0) mounted)
        = [JsArray.of_list moved] ∧
      moved ≡ₚ ["a"; "b"; "c"].
Proof.
  apply (handleDrop_permutes ["a"; "b"; "c"]
           (setDraggedIndex (Some 0) mounted) 0 2);
    [reflexivity | simpl; lia | simpl; lia].
Defined.

Lemma handleDrop_onto_neighbours_witness :
  calls (handleDrop ["a"; "b"; "c"; "d"] (1 + 1))
        (setDraggedIndex (Some 1) mounted)
    = [JsArray.of_list ["a"; "b"; "c"; "d"]] ∧
  calls (handleDrop ["a"; "b"; "c"; "d"] (1 - 1))
        (setDraggedIndex (Some 1) mounted)
    = calls (moveDirective ["a"; "b"; "c"; "d"] 1 Up)
            (setDraggedIndex (Some 1) mounted) ∧
  calls (handleDrop ["a"; "b"; "c"; "d"] (1 + 2))
        (setDraggedIndex (Some 1) mounted)
    = calls (moveDirective ["a"; "b"; "c"; "d"] 1 Down)
            (setDraggedIndex (Some 1) mounted).
Proof.
  destruct (handleDrop_onto_neighbours ["a"; "b"; "c"; "d"]
              (setDraggedIndex (Some 1) mounted) 1 eq_refl)
    as (Hnext & Hprev & Hdown).
  split; [apply Hnext; simpl; lia|].
  split; [apply Hprev; simpl; lia | apply Hdown; simpl; lia].
Defined.

Lemma move_buttons_disabled_iff_noop_witness :
  (GroupView.moveUpDisabled 0 = true
   ↔ calls (moveDirective ["a"; "b"] 0 Up) mounted = []) ∧
  (GroupView.moveDownDisabled ["a"; "b"] 0 = true
   ↔ calls (moveDirective ["a"; "b"] 0 Down) mounted = []).
Proof.
  apply (move_buttons_disabled_iff_noop ["a"; "b"] mounted 0). simpl. lia.
Defined.

Lemma addDirective_past_end_appends_witness :
  addDirective ["a"; "b"] "x" (Some 7) mounted
    = addDirective ["a"; "b"] "x" None mounted ∧
  calls (addDirective ["a"; "b"] "x" (Some 7)) mounted
    = [JsArray.of_list (["a"; "b"] ++ ["x"])] ∧
  shouldScrollToNew
    (state_after (addDirective ["a"; "b"] "x" (Some 7)) mounted) = true.
Proof.
  apply (addDirective_past_end_appends ["a"; "b"] mounted "x" 7). simpl. lia.
Defined.

Lemma addDirective_then_removeDirective_witness :
  ∃ updated,
    calls (addDirective ["a"; "b"] "x" (Some 1)) mounted
      = [JsArray.of_list updated] ∧
    calls (removeDirective updated 1) mounted = [JsArray.of_list ["a"; "b"]].
Proof.
  apply (addDirective_then_removeDirective ["a"; "b"] mounted mounted "x" 1).
  simpl. lia.
Defined.

Lemma handleDirectiveChange_outside_witness :
  calls (handleDirectiveChange ["a"; "b"] (-1) "x") mounted
    = [JsArray.of_list ["a"; "b"]] ∧
  ∃ updated,
    calls (handleDirectiveChange ["a"; "b"] 4 "x") mounted = [updated] ∧
    Z.of_nat (length updated) = 4 + 1 ∧
    JsArray.get updated 4 = Some "x" ∧
    (∀ k, 0 ≤ k < Z.of_nat (length ["a"; "b"]) →
       JsArray.get updated k = ["a"; "b"] !! Z.to_nat k) ∧
    (∀ k, Z.of_nat (length ["a"; "b"]) ≤ k < 4 →
       JsArray.get updated k = None).
Proof.
  split.
  - apply (handleDirectiveChange_outside ["a"; "b"] mounted (-1) "x"). lia.
  - apply (handleDirectiveChange_outside ["a"; "b"] mounted 4 "x");
      [simpl; lia | unfold max_array_index; lia].
Defined.

Lemma drag_gesture_restores_state_witness :
  state_after
    (handleDragStart 0 ;;; handleDragOver 2 ;;;
     handleDrop ["a"; "b"; "c"] 2)%handler mounted = mounted ∧
  ∃ moved,
    calls (handleDragStart 0 ;;; handleDragOver 2 ;;;
           handleDrop ["a"; "b"; "c"] 2)%handler mounted
      = [JsArray.of_list moved] ∧
    moved ≡ₚ ["a"; "b"; "c"].
Proof.
  destruct (drag_gesture_restores_state ["a"; "b"; "c"] mounted 0 2
              eq_refl eq_refl) as (Hstate & _ & _ & _ & Hmoved).
  split; [exact Hstate|].
  apply Hmoved; simpl; lia.
Defined.

Lemma delete_request_flows_witness :
  state_after (Ev := list (option string))
    (handleDeleteClick 1 ;;; cancelDelete)%handler mounted = mounted ∧
  calls (handleDeleteClick 1 ;;; confirmDelete ["a"; "b"; "c"])%handler
        mounted
    = [JsArray.of_list (remove_at (Z.to_nat 1) ["a"; "b"; "c"])].
Proof.
  destruct (delete_request_flows ["a"; "b"; "c"] ["a"; "c"] mounted 1 eq_refl)
    as (_ & Hcancel & _ & Hconfirm & _).
  split; [exact Hcancel|]. apply Hconfirm. simpl. lia.
Defined.

Lemma addButtonIndices_cover_positions_witness :
  0 ≤ 2 ≤ Z.of_nat (length ["a"; "b"]) ∧
  calls (addDirective ["a"; "b"] "x" (Some 2)) mounted
    = [JsArray.of_list (insert_at (Z.to_nat 2) "x" ["a"; "b"])] ∧
  insert_at (Z.to_nat 2) "x" ["a"; "b"] !! Z.to_nat 2 = Some "x" ∧
  (shouldScrollToNew
     (state_after (addDirective ["a"; "b"] "x" (Some 2)) mounted) = true
   ↔ 2 = Z.of_nat (length ["a"; "b"])).
Proof.
  destruct (addButtonIndices_cover_positions ["a"; "b"] mounted "x")
    as (_ & Hbutton).
  apply (Hbutton 2). by_decide.
Defined.

Lemma scroll_flag_survives_other_handlers_witness :
  calls (GroupView.scrollEffect true)
        (state_after (removeDirective ["a"; "b"] 0) mounted) = [] ∧
  calls (GroupView.scrollEffect true)
        (state_after (moveDirective ["a"; "b"] 0 Down) mounted) = [] ∧
  calls (GroupView.scrollEffect true)
        (state_after (handleDrop ["a"; "b"] 1) mounted) = [] ∧
  calls (GroupView.scrollEffect true)
        (state_after (handleDirectiveChange ["a"; "b"] 0 "x") mounted) = [].
Proof.
  destruct (scroll_flag_survives_other_handlers ["a"; "b"] mounted 0 1 Down
              "x" true) as (_ & Hquiet).
  apply Hquiet. reflexivity.
Defined.

Lemma updateParameter_edits_accumulate_witness :
  ∃ first : gmap string Value,
    calls (ParamEditor.updateParameter Sample.editor ∅ "mode"
             (VString "slow")) ParamEditor.mounted
      = [ParamEditor.UpdateDirective first;
         ParamEditor.OnGroupChange
           (ParamEditor.group
              (ParamEditor.updateDirective Sample.editor first)) first] ∧
    <["verbose" := VBoolean true]> first !! "mode" = Some (VString "slow").
Proof.
  destruct (updateParameter_edits_accumulate Sample.editor ∅
              ParamEditor.mounted ParamEditor.mounted
              "mode" (VString "slow") "verbose" (VBoolean true))
    as (first & Hfirst & _ & _ & Hkept).
  exists first. split; [exact Hfirst|]. apply Hkept. discriminate.
Defined.

Lemma edit_then_render_shows_entry_witness :
  ParamView.renderedAfter Sample.editor
    (ParamView.toggleChange Sample.editor ∅ Sample.verbose "true")
    ParamEditor.mounted false Sample.verbose
  = Some (ParamView.ToggleButtonGroup "true").
Proof.
  exact (edit_then_render_shows_entry Sample.editor ∅ ParamEditor.mounted
           false Sample.verbose eq_refl true).
Defined.

Lemma renderedFields_visibility_witness :
  (λ field : option ParamView.FormField, ParamView.label <$> field) <$>
    ParamView.renderedFields SampleForm.editor ∅ true
  ≡ₚ (λ arg, Some (ParamEditor.name arg)) <$>
       ParamEditor.arguments SampleForm.editor.
Proof.
  destruct (renderedFields_visibility SampleForm.editor ∅ true)
    as (_ & _ & Hall).
  apply Hall. reflexivity.
Defined.

Lemma currentValue_of_missing_key_witness :
  ParamEditor.currentValue Sample.editor SampleForm.only_verbose Sample.mode
  = VString "".
Proof.
  apply (currentValue_of_missing_key Sample.editor SampleForm.only_verbose
           Sample.mode (VString "fast")).
  - by_decide.
  - apply insert_non_empty.
  - reflexivity.
  - reflexivity.
Defined.

Lemma getDefaultParams_last_declared_wins_witness :
  ParamEditor.getDefaultParams SampleForm.repeated !! "mode"
  = Some (VString "fast").
Proof.
  apply (getDefaultParams_last_declared_wins SampleForm.repeated
           [Sample.tags] [SampleForm.mode_again] Sample.mode (VString "fast"));
    [reflexivity | reflexivity |].
  intros later Hin _. apply list_elem_of_singleton in Hin as ->. reflexivity.
Defined.

Lemma registry_never_forgets_witness :
  is_Some
    (Registry.getGroupEditor "pip"
       (Registry.registerAll
          [("apt", Sample.schema []); ("pip", SampleForm.editor)]
          (Registry.registerGroupEditor "pip" Sample.editor
             Registry.loaded))).
Proof.
  apply registry_never_forgets. exists Sample.editor. reflexivity.
Defined.

Lemma registries_in_step_witness :
  ("pip", SampleForm.editor)
    ∈ [("pip", Sample.editor); ("apt", Sample.schema []);
       ("pip", SampleForm.editor)] ∧
  (tt, SampleForm.editor)
    ∈ Registry.registeredDirectives
        (Registry.registerAll
           [("pip", Sample.editor); ("apt", Sample.schema []);
            ("pip", SampleForm.editor)] Registry.loaded).
Proof.
  destruct (registries_in_step
              [("pip", Sample.editor); ("apt", Sample.schema []);
               ("pip", SampleForm.editor)]) as (_ & Hfound & _).
  apply (Hfound "pip" SampleForm.editor). reflexivity.
Defined.
End MoreInstances.
